(** * BEE2 localisation: translation tokens and their resolution

    A shallow embedding of [src/localisation.py]: the token classes
    [TransToken], [PluralTransToken] and [JoinTransToken], their [__bool__],
    [__eq__], [__hash__] and [__str__] methods, the dummy translator,
    [load_basemodui] and [set_language].

    Conventions.
    - A Python [str] is a Rocq [string]; its characters stand for the code
      points 0..255.
    - A Python exception is a value of [exn]; a computation that may raise
      returns a [pyresult].
    - Dictionaries are stdpp [gmap]s, whose equality is extensional, as the
      equality of Python mappings is. *)

From Stdlib Require Import ZArith String Ascii List Bool Lia.
From stdpp Require Import base gmap strings list fin_maps pretty sorting.

Open Scope string_scope.
Open Scope Z_scope.

(** ** Python values and exceptions *)

(** The parameter values of a token ([Mapping[str, object]]).  The model keeps
    the values whose Python equality is structural: [str], [int], [None]. *)
Inductive pyobj :=
| PStr (s : string)
| PInt (z : Z)
| PNone.

#[global] Instance pyobj_eq_dec : EqDecision pyobj.
Proof. solve_decision. Defined.

(** The messages of the [ValueError]s that can be raised. *)
Inductive value_error :=
| PluralRequiresN                  (* Plural token requires "n" parameter! *)
| NamespaceNotAllowed (ns : string) (* Namespace "<ns>" is not allowed. *)
| InvalidIntLiteral (s : string)   (* invalid literal for int() with base 10 *)
| SingleCloseBrace                 (* Single '}' encountered in format string *)
| SingleOpenBrace                  (* Single '{' encountered in format string *)
| ExpectedCloseBrace               (* expected '}' before end of string *)
| UnexpectedOpenBrace              (* unexpected '{' in field name *)
| PositionalFields                 (* Format string contains positional fields *)
| SwitchAutoToManual               (* cannot switch from automatic field
                                      numbering to manual field specification *)
| SwitchManualToAuto.              (* cannot switch from manual field
                                      specification to automatic field numbering *)

Inductive exn :=
| KeyError (key : string)
| ValueError (v : value_error)
| TypeError_int (v : pyobj)        (* int() argument must be a string ... *)
| IndexError                       (* Replacement index out of range ... *)
| AttributeError (name : string)   (* module ... has no attribute name *)
| OutsideFragment.                 (* a format feature the model leaves out *)

Inductive pyresult (A : Type) :=
| Ok (a : A)
| Raise (e : exn).
Arguments Ok {A} a.
Arguments Raise {A} e.

#[global] Instance pyresult_ret : MRet pyresult := fun A a => Ok a.

#[global] Instance pyresult_bind : MBind pyresult := fun A B k r =>
  match r with
  | Ok a => k a
  | Raise e => Raise e
  end.

(** ** String builtins *)

Definition code (c : ascii) : Z := Z.of_N (N_of_ascii c).

Definition between (lo hi : Z) (c : ascii) : bool :=
  (lo <=? code c) && (code c <=? hi).

(** [str.isspace] on one character. *)
Definition isspace_char (c : ascii) : bool :=
  between 9 13 c || between 28 32 c || (code c =? 133) || (code c =? 160).

(** [str.isalnum] on one character: letters, digits and numeric characters. *)
Definition isalnum_char (c : ascii) : bool :=
  between 48 57 c || between 65 90 c || between 97 122 c
  || (code c =? 170) || (code c =? 178) || (code c =? 179) || (code c =? 181)
  || between 185 186 c || between 188 190 c
  || between 192 214 c || between 216 246 c || between 248 255 c.

Fixpoint all_chars (p : ascii -> bool) (s : string) : bool :=
  match s with
  | EmptyString => true
  | String c r => p c && all_chars p r
  end.

(** [s.isspace()]: at least one character, and all of them whitespace. *)
Definition isspace (s : string) : bool :=
  negb (s =? "")%string && all_chars isspace_char s.

Fixpoint string_map (f : ascii -> ascii) (s : string) : string :=
  match s with
  | EmptyString => EmptyString
  | String c r => String (f c) (string_map f r)
  end.

(** ['#' * n] *)
Fixpoint hashes (n : nat) : string :=
  match n with
  | O => EmptyString
  | S k => String "#" (hashes k)
  end.

(** ** [int(x)] *)

Definition isdigit_char (c : ascii) : bool := between 48 57 c.

(** The whitespace that [int] skips around the number; the separators 28 to
    31, which [str.isspace] accepts, are not part of it. *)
Definition int_space_char (c : ascii) : bool :=
  between 9 13 c || (code c =? 32) || (code c =? 133) || (code c =? 160).

Fixpoint skip_spaces (s : string) : string :=
  match s with
  | EmptyString => EmptyString
  | String c r => if int_space_char c then skip_spaces r else s
  end.

Definition strip (s : string) : string :=
  String.rev (skip_spaces (String.rev (skip_spaces s))).

(** Digits with single underscores between them, read in base 10.
    [prev] tells whether the previous character was a digit. *)
Fixpoint digits_value (acc : Z) (prev : bool) (s : string) : option Z :=
  match s with
  | EmptyString => if prev then Some acc else None
  | String c r =>
      if isdigit_char c then digits_value (10 * acc + (code c - 48)) true r
      else if (code c =? 95) && prev then digits_value acc false r
      else None
  end.

Definition int_of_str (s : string) : pyresult Z :=
  let body := strip s in
  let parsed :=
    match body with
    | String "-" r => option_map Z.opp (digits_value 0 false r)
    | String "+" r => digits_value 0 false r
    | _ => digits_value 0 false body
    end in
  match parsed with
  | Some z => Ok z
  | None => Raise (ValueError (InvalidIntLiteral s))
  end.

Definition int (v : pyobj) : pyresult Z :=
  match v with
  | PInt z => Ok z
  | PStr s => int_of_str s
  | PNone => Raise (TypeError_int PNone)
  end.

(** ** [str.format_map]

    The fragment modelled: literal text, the escapes [{{] and [}}], and
    replacement fields [{name}] whose name is looked up in the mapping.
    Fields with a conversion, a format specification, an attribute or an
    index, and all-digit names, are [OutsideFragment]. *)

Definition str_of_pyobj (v : pyobj) : string :=
  match v with
  | PStr s => s
  | PInt z => pretty z
  | PNone => "None"
  end.

Definition get_field (params : gmap string pyobj) (name : string)
  : pyresult string :=
  if (name =? "")%string then Raise (ValueError PositionalFields)
  else if all_chars isdigit_char name then Raise OutsideFragment
  else match params !! name with
       | Some v => Ok (str_of_pyobj v)
       | None => Raise (KeyError name)
       end.

Definition field_special (c : ascii) : bool :=
  (code c =? 33) || (code c =? 58) || (code c =? 46) || (code c =? 91).

(** [field] is [None] in literal text and [Some name] inside a replacement
    field, [name] being the characters read since its opening brace. *)
Fixpoint format_go (params : gmap string pyobj) (field : option string)
  (s : string) : pyresult string :=
  match field with
  | None =>
      match s with
      | EmptyString => Ok EmptyString
      | String "{" EmptyString => Raise (ValueError SingleOpenBrace)
      | String "{" (String "{" r) =>
          out ← format_go params None r; Ok (String "{" out)
      | String "{" r => format_go params (Some EmptyString) r
      | String "}" (String "}" r) =>
          out ← format_go params None r; Ok (String "}" out)
      | String "}" _ => Raise (ValueError SingleCloseBrace)
      | String c r =>
          out ← format_go params None r; Ok (String c out)
      end
  | Some name =>
      match s with
      | EmptyString => Raise (ValueError ExpectedCloseBrace)
      | String "}" r =>
          v ← get_field params name;
          out ← format_go params None r;
          Ok (v +:+ out)
      | String "{" _ => Raise (ValueError UnexpectedOpenBrace)
      | String c r =>
          if field_special c then Raise OutsideFragment
          else format_go params (Some (name +:+ String c EmptyString)) r
      end
  end.

Definition format_map (s : string) (params : gmap string pyobj)
  : pyresult string :=
  format_go params None s.

(** ** Tokens *)

Definition NS_UI : string := "<BEE2>".
Definition NS_GAME : string := "<PORTAL2>".
Definition NS_UNTRANSLATED : string := "<NOTRANSLATE>".
Definition PETI_KEY_PREFIX : string := "PORTAL2_PuzzleEditor".

(** The three token classes.  The constructor tells the exact class of the
    object, which is what [type(other) is ...] tests in [__eq__]. *)
#[warnings="-register-all"]
Inductive Token :=
| TransToken (namespace token : string) (parameters : gmap string pyobj)
| PluralTransToken (namespace token : string)
    (parameters : gmap string pyobj) (token_plural : string)
| JoinTransToken (namespace token : string)
    (parameters : gmap string pyobj) (children : list Token) (sort : bool).

Definition namespace (t : Token) : string :=
  match t with
  | TransToken ns _ _ | PluralTransToken ns _ _ _
  | JoinTransToken ns _ _ _ _ => ns
  end.

Definition token (t : Token) : string :=
  match t with
  | TransToken _ k _ | PluralTransToken _ k _ _
  | JoinTransToken _ k _ _ _ => k
  end.

Definition parameters (t : Token) : gmap string pyobj :=
  match t with
  | TransToken _ _ p | PluralTransToken _ _ p _
  | JoinTransToken _ _ p _ _ => p
  end.

(** Induction on tokens, with the children of a join token covered. *)
Section Token_induction.
Variable P : Token -> Prop.
Hypothesis P_plain : forall ns k p, P (TransToken ns k p).
Hypothesis P_plural : forall ns k p kp, P (PluralTransToken ns k p kp).
Hypothesis P_join : forall ns k p cs srt,
  Forall P cs -> P (JoinTransToken ns k p cs srt).

Fixpoint Token_children_ind (t : Token) : P t :=
  match t with
  | TransToken ns k p => P_plain ns k p
  | PluralTransToken ns k p kp => P_plural ns k p kp
  | JoinTransToken ns k p cs srt =>
      P_join ns k p cs srt
        ((fix all (l : list Token) : Forall P l :=
            match l with
            | nil => @List.Forall_nil _ P
            | c :: l' =>
                @List.Forall_cons _ P c l' (Token_children_ind c) (all l')
            end) cs)
  end.
End Token_induction.

(** Constructors of the source. *)
Definition ui (k : string) (kwargs : gmap string pyobj) : Token :=
  TransToken NS_UI k kwargs.

Definition ui_plural (singular plural : string) (kwargs : gmap string pyobj)
  : Token :=
  PluralTransToken NS_UI singular kwargs plural.

Definition untranslated (text : string) : Token :=
  TransToken NS_UNTRANSLATED text ∅.

(** [TransToken.join]; [PluralTransToken.join] raises [NotImplementedError]
    and builds no token. *)
Definition join (self : Token) (cs : list Token) (srt : bool)
  : option Token :=
  match self with
  | PluralTransToken _ _ _ _ => None
  | _ => Some (JoinTransToken (namespace self) (token self)
                              (parameters self) cs srt)
  end.

(** [__bool__], inherited by the three classes. *)
Definition Token_bool (self : Token) : bool :=
  negb (token self =? "")%string && negb (isspace (token self)).

(** ** Translators *)

(** A compiled catalogue ([GNUTranslations]) through its two lookups. *)
Record catalog := {
  cat_gettext : string -> string;
  cat_ngettext : string -> string -> Z -> string;
}.

Inductive translator :=
| NullTranslations
| GNUTranslations (cat : catalog)
| DummyTranslations.

Definition dummy_char (c : ascii) : ascii :=
  if isalnum_char c || (code c =? 123) || (code c =? 125) then "#"%char
  else c.

Definition DummyTranslations_gettext (message : string) : string :=
  string_map dummy_char message.

Definition DummyTranslations_ngettext (msgid1 msgid2 : string) (n : Z)
  : string :=
  DummyTranslations_gettext (if n =? 1 then msgid1 else msgid2).

Definition gettext (tr : translator) (message : string) : string :=
  match tr with
  | NullTranslations => message
  | GNUTranslations cat => cat_gettext cat message
  | DummyTranslations => DummyTranslations_gettext message
  end.

Definition ngettext (tr : translator) (msgid1 msgid2 : string) (n : Z)
  : string :=
  match tr with
  | NullTranslations => if n =? 1 then msgid1 else msgid2
  | GNUTranslations cat => cat_ngettext cat msgid1 msgid2 n
  | DummyTranslations => DummyTranslations_ngettext msgid1 msgid2 n
  end.

(** [isinstance(_TRANSLATOR, DummyTranslations)] *)
Definition is_dummy (tr : translator) : bool :=
  match tr with
  | DummyTranslations => true
  | _ => false
  end.

(** ** Resolution: [__str__] *)

(** The end of both [__str__] bodies: format when there are parameters. *)
Definition apply_parameters (result : string)
  (params : gmap string pyobj) : pyresult string :=
  if bool_decide (params = ∅) then Ok result else format_map result params.

(** [TRANSLATIONS[namespace][token]], the key itself on [KeyError]. *)
Definition lookup_translation (T : gmap string (gmap string string))
  (ns k : string) : string :=
  match T !! ns with
  | Some table => default k (table !! k)
  | None => k
  end.

Definition TransToken_str (tr : translator)
  (T : gmap string (gmap string string))
  (ns k : string) (params : gmap string pyobj) : pyresult string :=
  if (ns =? NS_UNTRANSLATED)%string || (k =? "")%string then
    apply_parameters k params
  else if is_dummy tr then
    Ok (hashes (String.length k))
  else if (ns =? NS_UI)%string then
    apply_parameters (gettext tr k) params
  else
    apply_parameters (lookup_translation T ns k) params.

(** [int(self.parameters['n'])], the [KeyError] turned into a [ValueError]. *)
Definition plural_n (params : gmap string pyobj) : pyresult Z :=
  match params !! "n" with
  | None => Raise (ValueError PluralRequiresN)
  | Some v => int v
  end.

(** The body of [PluralTransToken.__str__] once [n] is known. *)
Definition plural_select (tr : translator) (n : Z)
  (ns k : string) (params : gmap string pyobj) (kp : string)
  : pyresult string :=
  if (ns =? NS_UNTRANSLATED)%string || (k =? "")%string then
    apply_parameters (if n =? 1 then k else kp) params
  else if is_dummy tr then
    Ok (hashes (String.length k))
  else if (ns =? NS_UI)%string then
    apply_parameters (ngettext tr k kp n) params
  else
    Raise (ValueError (NamespaceNotAllowed ns)).

Definition PluralTransToken_str (tr : translator)
  (ns k : string) (params : gmap string pyobj) (kp : string)
  : pyresult string :=
  n ← plural_n params;
  plural_select tr n ns k params kp.

(** [list.sort] on strings: insertion sort by code points. *)
Fixpoint insert_sorted (s : string) (l : list string) : list string :=
  match l with
  | nil => s :: nil
  | x :: l' => if String.leb s x then s :: l else x :: insert_sorted s l'
  end.

Definition sort_strings (l : list string) : list string :=
  fold_right insert_sorted nil l.

(** [str(token)] under the translator [tr] and the tables [T]. *)
Fixpoint str (tr : translator) (T : gmap string (gmap string string))
  (t : Token) : pyresult string :=
  match t with
  | TransToken ns k p => TransToken_str tr T ns k p
  | PluralTransToken ns k p kp => PluralTransToken_str tr ns k p kp
  | JoinTransToken ns k p cs srt =>
      sep ← TransToken_str tr T ns k p;
      items ← (fix each (l : list Token) : pyresult (list string) :=
                 match l with
                 | nil => Ok nil
                 | child :: l' =>
                     s ← str tr T child;
                     rest ← each l';
                     Ok (s :: rest)
                 end) cs;
      Ok (String.concat sep (if srt then sort_strings items else items))
  end.

(** ** Equality and hashing *)

(** [self == other].  An [__eq__] that returns [NotImplemented] on both sides
    leaves Python with the identity test, which two objects of different
    classes fail. *)
Fixpoint Token_eq (self other : Token) : bool :=
  match self, other with
  | TransToken ns k p, TransToken ns' k' p' =>
      (ns =? ns')%string && (k =? k')%string && bool_decide (p = p')
  | PluralTransToken ns k p kp, PluralTransToken ns' k' p' kp' =>
      (ns =? ns')%string && (k =? k')%string && (kp =? kp')%string
      && bool_decide (p = p')
  | JoinTransToken ns k _ cs _, JoinTransToken ns' k' _ cs' _ =>
      (ns =? ns')%string && (k =? k')%string
      && (fix list_eq (l l' : list Token) : bool :=
            match l, l' with
            | nil, nil => true
            | c :: r, c' :: r' => Token_eq c c' && list_eq r r'
            | _, _ => false
            end) cs cs'
  | _, _ => false
  end.

(** [self.children == other.children] as a relation on the two lists. *)
Definition children_eq (cs cs' : list Token) : Prop :=
  Forall2 (fun c c' => Token_eq c c' = true) cs cs'.

Section Hashing.
(** Python's [hash] on strings, on tuples (from the hashes of the items)
    and on [frozenset(parameters.items())]. *)
Variable hash_str : string -> Z.
Variable hash_tuple : list Z -> Z.
Variable hash_items : gmap string pyobj -> Z.

Fixpoint Token_hash (t : Token) : Z :=
  match t with
  | TransToken ns k p =>
      hash_tuple (hash_str ns :: hash_str k :: hash_items p :: nil)
  | PluralTransToken ns k p kp =>
      hash_tuple
        (hash_str ns :: hash_str k :: hash_str kp :: hash_items p :: nil)
  | JoinTransToken ns k _ cs _ =>
      hash_tuple (hash_str ns :: hash_str k :: map Token_hash cs)
  end.
End Hashing.

(** ** [load_basemodui] *)

Definition dquote : ascii := ascii_of_N 34.

(** [s.split(sep)] for a one-character separator. *)
Fixpoint split_on (sep : ascii) (s : string) : list string :=
  match s with
  | EmptyString => EmptyString :: nil
  | String c r =>
      if Ascii.eqb c sep then EmptyString :: split_on sep r
      else match split_on sep r with
           | x :: l => String c x :: l
           | nil => String c EmptyString :: nil
           end
  end.

(** [value.replace("\\'", "'")]: backslash-apostrophe becomes apostrophe. *)
Fixpoint unescape_apostrophe (s : string) : string :=
  match s with
  | EmptyString => EmptyString
  | String "\" (String "'" r) => String "'" (unescape_apostrophe r)
  | String c r => String c (unescape_apostrophe r)
  end.

(** One line of the file: kept when it splits into five parts on the double
    quote and its key has the puzzle editor prefix. *)
Definition load_line (trans_data : gmap string string) (line : string)
  : gmap string string :=
  match split_on dquote line with
  | _ :: key :: _ :: value :: _ :: nil =>
      if String.prefix PETI_KEY_PREFIX key
      then <[key := unescape_apostrophe value]> trans_data
      else trans_data
  | _ => trans_data
  end.

(** [fs path] is the list of the lines of the file at [path], [None] when
    opening it raises [FileNotFoundError]. *)
Definition load_basemodui (fs : string -> option (list string))
  (basemod_loc : string) (T : gmap string (gmap string string))
  : gmap string (gmap string string) :=
  match T !! NS_GAME with
  | Some _ => T
  | None =>
      match fs basemod_loc with
      | None => T
      | Some lines => <[NS_GAME := foldl load_line ∅ lines]> T
      end
  end.

(** ** The globals of the module, and what is outside it *)

(** What [set_language] reads from outside the module. *)
Record environment := {
  (* gettext._expand_lang: the codes to try, most specific first *)
  expand_lang : string -> list string;
  (* the compiled catalogue in the file of a code, i18n/<lang>.mo for a code
     without brace; None when the file is missing *)
  open_mo : string -> option catalog;
  (* whether [from tkinter import font] succeeds *)
  tkinter_importable : bool;
}.

(** The calls made on widgets, menus and callbacks, oldest first. *)
Inductive event :=
| SetText (widget : nat) (text : string)
| EntryConfigure (menu : nat) (index : nat) (label : string)
| Call (func : nat).

(** What a registered function does when it is called: the calls it makes
    on this module, in order.  A function that registers another one carries
    the identity and the body of that function.  Calls of [set_language] and
    of [load_basemodui] from a registered function are not part of the
    model. *)
#[warnings="-register-all"]
Inductive action :=
| DoApply (t : Token) (widget : nat)          (* t.apply(widget) *)
| DoApplyMenu (t : Token) (menu ind : nat)    (* t.apply_menu(menu, ind) *)
| DoClearMenu (menu : nat)       (* TransToken.clear_stored_menu(menu) *)
| DoAddCallback (func : nat) (body : list action) (call : bool)
                                 (* TransToken.add_callback(func, call) *)
| DoRaise (e : exn).             (* raise e *)

(** Induction on actions, with the body of a registered function covered. *)
Section action_induction.
Variable P : action -> Prop.
Hypothesis P_apply : forall t widget, P (DoApply t widget).
Hypothesis P_apply_menu : forall t menu ind, P (DoApplyMenu t menu ind).
Hypothesis P_clear : forall menu, P (DoClearMenu menu).
Hypothesis P_add : forall func body call,
  Forall P body -> P (DoAddCallback func body call).
Hypothesis P_raise : forall e, P (DoRaise e).

Fixpoint action_body_ind (a : action) : P a :=
  match a with
  | DoApply t widget => P_apply t widget
  | DoApplyMenu t menu ind => P_apply_menu t menu ind
  | DoClearMenu menu => P_clear menu
  | DoAddCallback func body call =>
      P_add func body call
        ((fix all (l : list action) : Forall P l :=
            match l with
            | nil => @List.Forall_nil _ P
            | x :: l' => @List.Forall_cons _ P x l' (action_body_ind x) (all l')
            end) body)
  | DoRaise e => P_raise e
  end.
End action_induction.

(** A registered function: its identity and what it does. *)
Record callback := {
  cb_id : nat;
  cb_body : list action;
}.

(** The module's globals.  The two weak dictionaries are association lists
    in insertion order. *)
Record state := {
  _TRANSLATOR : translator;
  TRANSLATIONS : gmap string (gmap string string);
  PROP_FLAGS_DEFAULT : gmap string bool;
  _applied_tokens : list (nat * Token);
  _applied_menu_tokens : list (nat * list (nat * Token));
  _langchange_callback : list callback;
  events : list event;
}.

(** A computation that calls out: the events it emitted, then its outcome. *)
Definition io (A : Type) : Type := (list event * pyresult A)%type.

Definition io_ret {A} (a : A) : io A := (nil, Ok a).

Definition io_bind {A B} (c : io A) (k : A -> io B) : io B :=
  match c with
  | (evs, Ok a) => let (evs', r) := k a in ((evs ++ evs')%list, r)
  | (evs, Raise e) => (evs, Raise e)
  end.

Definition emit (e : event) : io unit := (e :: nil, Ok tt).

Definition lift {A} (r : pyresult A) : io A := (nil, r).

(** A [for] loop whose body may raise. *)
Fixpoint for_each {A} (body : A -> io unit) (l : list A) : io unit :=
  match l with
  | nil => io_ret tt
  | x :: l' => io_bind (body x) (fun _ => for_each body l')
  end.

Definition reload_widget (tr : translator)
  (T : gmap string (gmap string string)) (entry : nat * Token) : io unit :=
  io_bind (lift (str tr T entry.2)) (fun s => emit (SetText entry.1 s)).

Definition reload_menu (tr : translator)
  (T : gmap string (gmap string string))
  (entry : nat * list (nat * Token)) : io unit :=
  for_each (fun item : nat * Token =>
              io_bind (lift (str tr T item.2))
                      (fun s => emit (EntryConfigure entry.1 item.1 s)))
           entry.2.

(** ** [TransToken.parse], [from_valve] and [format] *)

(** [s.split("]]", 1)]: the text before the first pair of closing brackets
    and the text after it; [None] when there is no such pair, in which case
    unpacking the one-element list raises [ValueError]. *)
Fixpoint split_brackets (s : string) : option (string * string) :=
  match s with
  | EmptyString => None
  | String "]" (String "]" r) => Some (EmptyString, r)
  | String c r =>
      match split_brackets r with
      | Some (before, after) => Some (String c before, after)
      | None => None
      end
  end.

(** [s.lstrip()] *)
Fixpoint lstrip (s : string) : string :=
  match s with
  | EmptyString => EmptyString
  | String c r => if isspace_char c then lstrip r else s
  end.

(** [s.endswith(c)] for one character. *)
Fixpoint endswith_char (c : ascii) (s : string) : bool :=
  match s with
  | EmptyString => false
  | String x EmptyString => Ascii.eqb x c
  | String _ r => endswith_char c r
  end.

(** [package.startswith('<') or package.endswith('>')] *)
Definition special_namespace (package : string) : bool :=
  String.prefix "<" package || endswith_char ">" package.

(** [TransToken.parse].  The assignment [package, token = ...] rebinds
    [package] before the test of the special namespaces, so the token of the
    [except] branch carries the bracketed package when that test raised, and
    the argument when the unpacking raised. *)
Definition parse (package text : string) : Token :=
  match text with
  | String "[" (String "[" rest) =>
      match split_brackets rest with
      | Some (package', token') =>
          if special_namespace package' then TransToken package' text ∅
          else TransToken
                 (if (package' =? "")%string then NS_UNTRANSLATED
                  else package')
                 (lstrip token') ∅
      | None => TransToken package text ∅
      end
  | _ =>
      if String.prefix PETI_KEY_PREFIX text then TransToken NS_GAME text ∅
      else TransToken package text ∅
  end.

Definition from_valve (text : string) : Token :=
  TransToken NS_GAME text ∅.

(** [attrs.evolve(self, parameters=p)] *)
Definition with_parameters (t : Token) (p : gmap string pyobj) : Token :=
  match t with
  | TransToken ns k _ => TransToken ns k p
  | PluralTransToken ns k _ kp => PluralTransToken ns k p kp
  | JoinTransToken ns k _ cs srt => JoinTransToken ns k p cs srt
  end.

(** [TransToken.format]: [{**self.parameters, **kwargs}], the later keys
    winning. *)
Definition format (self : Token) (kwargs : gmap string pyobj) : Token :=
  with_parameters self (kwargs ∪ parameters self).

(** ** The registries: [apply], [apply_menu], [clear_stored_menu],
    [add_callback] *)

(** [d[key] = v] on a dictionary kept in insertion order: an existing key
    keeps its place. *)
Fixpoint assoc_set {V} (key : nat) (v : V) (l : list (nat * V))
  : list (nat * V) :=
  match l with
  | nil => (key, v) :: nil
  | (k, x) :: r =>
      if Nat.eqb k key then (key, v) :: r else (k, x) :: assoc_set key v r
  end.

Fixpoint assoc_get {V} (key : nat) (l : list (nat * V)) : option V :=
  match l with
  | nil => None
  | (k, x) :: r => if Nat.eqb k key then Some x else assoc_get key r
  end.

(** [d.pop(key, None)] *)
Fixpoint assoc_pop {V} (key : nat) (l : list (nat * V)) : list (nat * V) :=
  match l with
  | nil => nil
  | (k, x) :: r =>
      if Nat.eqb k key then assoc_pop key r else (k, x) :: assoc_pop key r
  end.

Definition set_applied_tokens (l : list (nat * Token)) (st : state)
  : state := {|
  _TRANSLATOR := _TRANSLATOR st;
  TRANSLATIONS := TRANSLATIONS st;
  PROP_FLAGS_DEFAULT := PROP_FLAGS_DEFAULT st;
  _applied_tokens := l;
  _applied_menu_tokens := _applied_menu_tokens st;
  _langchange_callback := _langchange_callback st;
  events := events st;
|}.

Definition set_applied_menu_tokens (l : list (nat * list (nat * Token)))
  (st : state) : state := {|
  _TRANSLATOR := _TRANSLATOR st;
  TRANSLATIONS := TRANSLATIONS st;
  PROP_FLAGS_DEFAULT := PROP_FLAGS_DEFAULT st;
  _applied_tokens := _applied_tokens st;
  _applied_menu_tokens := l;
  _langchange_callback := _langchange_callback st;
  events := events st;
|}.

Definition set_langchange_callback (l : list callback) (st : state)
  : state := {|
  _TRANSLATOR := _TRANSLATOR st;
  TRANSLATIONS := TRANSLATIONS st;
  PROP_FLAGS_DEFAULT := PROP_FLAGS_DEFAULT st;
  _applied_tokens := _applied_tokens st;
  _applied_menu_tokens := _applied_menu_tokens st;
  _langchange_callback := l;
  events := events st;
|}.

Definition add_events (evs : list event) (st : state) : state := {|
  _TRANSLATOR := _TRANSLATOR st;
  TRANSLATIONS := TRANSLATIONS st;
  PROP_FLAGS_DEFAULT := PROP_FLAGS_DEFAULT st;
  _applied_tokens := _applied_tokens st;
  _applied_menu_tokens := _applied_menu_tokens st;
  _langchange_callback := _langchange_callback st;
  events := (events st ++ evs)%list;
|}.

Definition set_translator (tr : translator) (st : state) : state := {|
  _TRANSLATOR := tr;
  TRANSLATIONS := TRANSLATIONS st;
  PROP_FLAGS_DEFAULT := PROP_FLAGS_DEFAULT st;
  _applied_tokens := _applied_tokens st;
  _applied_menu_tokens := _applied_menu_tokens st;
  _langchange_callback := _langchange_callback st;
  events := events st;
|}.

Definition set_prop_flags (flags : gmap string bool) (st : state)
  : state := {|
  _TRANSLATOR := _TRANSLATOR st;
  TRANSLATIONS := TRANSLATIONS st;
  PROP_FLAGS_DEFAULT := flags;
  _applied_tokens := _applied_tokens st;
  _applied_menu_tokens := _applied_menu_tokens st;
  _langchange_callback := _langchange_callback st;
  events := events st;
|}.

(** [TransToken.apply]: the text is set first, and the token remembered
    only when that did not raise. *)
Definition apply (self : Token) (widget : nat) (st : state)
  : state * pyresult unit :=
  match str (_TRANSLATOR st) (TRANSLATIONS st) self with
  | Raise e => (st, Raise e)
  | Ok s =>
      (set_applied_tokens (assoc_set widget self (_applied_tokens st))
         (add_events (SetText widget s :: nil) st), Ok tt)
  end.

(** [TransToken.apply_menu], [ind] being the number that [menu.index(index)]
    answers.  The map of the menu is created before the token is resolved. *)
Definition apply_menu (self : Token) (menu ind : nat) (st : state)
  : state * pyresult unit :=
  let tok_map := default nil (assoc_get menu (_applied_menu_tokens st)) in
  let menus :=
    match assoc_get menu (_applied_menu_tokens st) with
    | Some _ => _applied_menu_tokens st
    | None => assoc_set menu nil (_applied_menu_tokens st)
    end in
  match str (_TRANSLATOR st) (TRANSLATIONS st) self with
  | Raise e => (set_applied_menu_tokens menus st, Raise e)
  | Ok s =>
      (set_applied_menu_tokens
         (assoc_set menu (assoc_set ind self tok_map) menus)
         (add_events (EntryConfigure menu ind s :: nil) st), Ok tt)
  end.

(** [TransToken.clear_stored_menu] *)
Definition clear_stored_menu (menu : nat) (st : state) : state :=
  set_applied_menu_tokens (assoc_pop menu (_applied_menu_tokens st)) st.

(** Statements in sequence, left at the first one that raises. *)
Definition run_seq {A} (step : A -> state -> state * pyresult unit)
  : list A -> state -> state * pyresult unit :=
  fix go (l : list A) (st : state) : state * pyresult unit :=
    match l with
    | nil => (st, Ok tt)
    | x :: l' =>
        let (st1, outcome) := step x st in
        match outcome with
        | Ok _ => go l' st1
        | Raise e => (st1, Raise e)
        end
    end.

(** One call made by a registered function.  Registering appends the
    function first and, when [call] is true, calls it at once: the call is
    recorded, then its body runs. *)
Fixpoint run_action (a : action) (st : state) : state * pyresult unit :=
  match a with
  | DoApply t widget => apply t widget st
  | DoApplyMenu t menu ind => apply_menu t menu ind st
  | DoClearMenu menu => (clear_stored_menu menu st, Ok tt)
  | DoAddCallback func body call =>
      let st1 :=
        set_langchange_callback
          (_langchange_callback st
           ++ {| cb_id := func; cb_body := body |} :: nil)%list st in
      if call then
        run_seq run_action body (add_events (Call func :: nil) st1)
      else (st1, Ok tt)
  | DoRaise e => (st, Raise e)
  end.

(** [func()] *)
Definition run_callback (func : callback) (st : state)
  : state * pyresult unit :=
  run_seq run_action (cb_body func)
    (add_events (Call (cb_id func) :: nil) st).

(** [TransToken.add_callback]: the function is appended, then called when
    [call] is true. *)
Definition add_callback (func : callback) (call : bool) (st : state)
  : state * pyresult unit :=
  let st1 :=
    set_langchange_callback (_langchange_callback st ++ func :: nil)%list st in
  if call then run_callback func st1 else (st1, Ok tt).

(** ** [set_language] and the reload of the applied tokens *)

(** The functions that a call registers, in the order of registration: a
    function registered with [call] runs at once and registers its own. *)
Fixpoint registered (a : action) : list callback :=
  match a with
  | DoAddCallback func body call =>
      {| cb_id := func; cb_body := body |}
      :: (if call then flat_map registered body else nil)
  | _ => nil
  end.

Definition callback_registers (func : callback) : list callback :=
  flat_map registered (cb_body func).

(** A bound on the number of calls that the loop over the callbacks makes:
    one for each function of the list, and one for each function that these
    calls register. *)
Fixpoint action_weight (a : action) : nat :=
  match a with
  | DoAddCallback _ body call =>
      S (list_sum (map action_weight body))
      + (if call then list_sum (map action_weight body) else 0)
  | _ => 0
  end.

Definition callback_weight (func : callback) : nat :=
  S (list_sum (map action_weight (cb_body func))).

Definition loop_fuel (l : list callback) : nat :=
  list_sum (map callback_weight l).

(** [for func in _langchange_callback: func()], from the index [i] on.  The
    loop reads the list as it is at each step, so it reaches the functions
    registered by the calls it makes. *)
Fixpoint callback_loop (fuel i : nat) (st : state)
  : state * pyresult unit :=
  match fuel with
  | O => (st, Ok tt)
  | S fuel' =>
      match _langchange_callback st !! i with
      | None => (st, Ok tt)
      | Some func =>
          let (st1, outcome) := run_callback func st in
          match outcome with
          | Ok _ => callback_loop fuel' (S i) st1
          | Raise e => (st1, Raise e)
          end
      end
  end.

(** The whole loop; [loop_fuel] of the list at the start is enough fuel
    (lemma [callback_loop_fuel]). *)
Definition reload_callbacks (st : state) : state * pyresult unit :=
  callback_loop (loop_fuel (_langchange_callback st)) 0 st.

(** The three loops that end [set_language]. *)
Definition reload_localisations (st : state) : state * pyresult unit :=
  let (evs, outcome) :=
    io_bind
      (for_each (reload_widget (_TRANSLATOR st) (TRANSLATIONS st))
                (_applied_tokens st))
      (fun _ => for_each (reload_menu (_TRANSLATOR st) (TRANSLATIONS st))
                         (_applied_menu_tokens st)) in
  match outcome with
  | Ok _ => reload_callbacks (add_events evs st)
  | Raise e => (add_events evs st, Raise e)
  end.

(** The catalogue of the first code that has one. *)
Fixpoint first_catalog (open : string -> option catalog)
  (langs : list string) : option catalog :=
  match langs with
  | nil => None
  | lang :: rest =>
      match open lang with
      | Some cat => Some cat
      | None => first_catalog open rest
      end
  end.

(** The translator that [set_language] installs when it installs one. *)
Definition select_translator (env : environment) (lang_code : string)
  : translator :=
  match first_catalog (open_mo env) (expand_lang env lang_code) with
  | Some cat => GNUTranslations cat
  | None =>
      if (lang_code =? "dummy")%string then DummyTranslations
      else NullTranslations
  end.

(** [s.format(arg)] with one positional argument and no keyword: the same
    fragment as [format_map], a field without a name or with the number 0
    standing for the argument. *)
Inductive numbering :=
| NotNumbered
| Automatic (next : nat)
| Manual.

Definition positional_field (arg : string) (num : numbering)
  (name : string) : pyresult (string * numbering) :=
  if (name =? "")%string then
    match num with
    | Manual => Raise (ValueError SwitchManualToAuto)
    | NotNumbered => Ok (arg, Automatic 1)
    | Automatic _ => Raise IndexError
    end
  else if all_chars isdigit_char name then
    match num with
    | Automatic _ => Raise (ValueError SwitchAutoToManual)
    | _ =>
        match digits_value 0 false name with
        | Some 0 => Ok (arg, Manual)
        | Some z => if z <? 2147483648 then Raise IndexError
                    else Raise OutsideFragment
        | None => Raise OutsideFragment
        end
    end
  else Raise (KeyError name).

Fixpoint format_arg_go (arg : string) (num : numbering)
  (field : option string) (s : string) : pyresult string :=
  match field with
  | None =>
      match s with
      | EmptyString => Ok EmptyString
      | String "{" EmptyString => Raise (ValueError SingleOpenBrace)
      | String "{" (String "{" r) =>
          out ← format_arg_go arg num None r; Ok (String "{" out)
      | String "{" r => format_arg_go arg num (Some EmptyString) r
      | String "}" (String "}" r) =>
          out ← format_arg_go arg num None r; Ok (String "}" out)
      | String "}" _ => Raise (ValueError SingleCloseBrace)
      | String c r =>
          out ← format_arg_go arg num None r; Ok (String c out)
      end
  | Some name =>
      match s with
      | EmptyString => Raise (ValueError ExpectedCloseBrace)
      | String "}" r =>
          match positional_field arg num name with
          | Raise e => Raise e
          | Ok (v, num') =>
              out ← format_arg_go arg num' None r;
              Ok (v +:+ out)
          end
      | String "{" _ => Raise (ValueError UnexpectedOpenBrace)
      | String c r =>
          if field_special c then Raise OutsideFragment
          else format_arg_go arg num (Some (name +:+ String c EmptyString)) r
      end
  end.

(** [(lang + '.mo').format(lang)] *)
Definition mo_file_name (lang : string) : pyresult string :=
  format_arg_go lang NotNumbered None (lang +:+ ".mo").

(** The [for] loop over the expanded codes: the name of the file is made,
    which may raise, then the file is looked for; the loop is left at the
    first file found.  [open lang] is the catalogue in the file of that
    name. *)
Fixpoint find_catalog (open : string -> option catalog)
  (langs : list string) : pyresult (option catalog) :=
  match langs with
  | nil => Ok None
  | lang :: rest =>
      _ ← mo_file_name lang;
      match open lang with
      | Some cat => Ok (Some cat)
      | None => find_catalog open rest
      end
  end.

(** ['en' in expanded_langs] *)
Definition has_english (langs : list string) : bool :=
  existsb (String.eqb "en") langs.

(** The loop and its [else] branch.  When no file is found for a code
    other than [dummy] and [en] is not among the expanded codes, the warning
    is asked of [logger], the module of srctools, which has no function
    [warning]: the call raises [AttributeError] before the passthrough
    translator is made. *)
Definition install_translator (env : environment) (lang_code : string)
  : pyresult translator :=
  found ← find_catalog (open_mo env) (expand_lang env lang_code);
  match found with
  | Some cat => Ok (GNUTranslations cat)
  | None =>
      if (lang_code =? "dummy")%string then Ok DummyTranslations
      else if has_english (expand_lang env lang_code) then Ok NullTranslations
      else Raise (AttributeError "warning")
  end.

Definition set_lang_flags (langs : list string) (flags : gmap string bool)
  : gmap string bool :=
  foldl (fun m lang => <["lang_" +:+ lang := true]> m) flags langs.

(** The font override returns from [set_language] when tkinter is missing. *)
Definition font_override_returns (env : environment) (tr : translator)
  : bool :=
  (gettext tr "__LANG_USE_SANS_SERIF__" =? "YES")%string
  && negb (tkinter_importable env).

(** [set_language]: the new globals and the outcome of the call.  The other
    logging calls leave the globals alone and are left out; the loop over
    [font_names] has no body in the source. *)
Definition set_language (env : environment) (lang_code : string)
  (st : state) : state * pyresult unit :=
  let st1 :=
    set_prop_flags
      (set_lang_flags (expand_lang env lang_code) (PROP_FLAGS_DEFAULT st))
      st in
  match install_translator env lang_code with
  | Raise e => (st1, Raise e)
  | Ok tr =>
      let st2 := set_translator tr st1 in
      if font_override_returns env tr then (st2, Ok tt)
      else reload_localisations st2
  end.

(** ** [setup] *)

Definition either_case (lower upper c : ascii) : bool :=
  Ascii.eqb c lower || Ascii.eqb c upper.

(** [arg.casefold().startswith('lang=')]: among the code points 0..255 only
    the two cases of a letter fold to it. *)
Definition is_lang_arg (arg : string) : bool :=
  match arg with
  | String c1 (String c2 (String c3 (String c4 (String c5 _)))) =>
      either_case "l" "L" c1 && either_case "a" "A" c2
      && either_case "n" "N" c3 && either_case "g" "G" c4
      && Ascii.eqb c5 "="
  | _ => false
  end.

(** [s[n:]] *)
Fixpoint string_drop (n : nat) (s : string) : string :=
  match n, s with
  | S k, String _ r => string_drop k r
  | _, _ => s
  end.

(** The loop over [sys.argv[1:]], left at the first match. *)
Fixpoint lang_override (args : list string) : option string :=
  match args with
  | nil => None
  | arg :: rest =>
      if is_lang_arg arg then Some (string_drop 5 arg)
      else lang_override rest
  end.

(** [setup], [default_locale] being [locale.getdefaultlocale()[0]] and
    [argv] being [sys.argv]. *)
Definition setup (env : environment) (default_locale : string)
  (argv : list string) (st : state) : state * pyresult unit :=
  set_language env
    (default default_locale (lang_override (tail argv))) st.

(** ** Auxiliary functions of the statements *)

(** The loop over the children in [JoinTransToken.__str__]. *)
Fixpoint str_children (tr : translator)
  (T : gmap string (gmap string string)) (cs : list Token)
  : pyresult (list string) :=
  match cs with
  | nil => Ok nil
  | child :: cs' =>
      s ← str tr T child;
      rest ← str_children tr T cs';
      Ok (s :: rest)
  end.

(** Plain tokens without parameters, and joins of such tokens with a
    separator without parameters. *)
Fixpoint parameter_free (t : Token) : bool :=
  match t with
  | TransToken _ _ p => bool_decide (p = ∅)
  | PluralTransToken _ _ _ _ => false
  | JoinTransToken _ _ p cs _ =>
      bool_decide (p = ∅) && forallb parameter_free cs
  end.

(** The events of one call of a registered function, when no statement of
    it raises: its own call, then what its statements do in order. *)
Fixpoint action_events (tr : translator)
  (T : gmap string (gmap string string)) (a : action) : list event :=
  match a with
  | DoApply t widget =>
      SetText widget
        (match str tr T t with Ok s => s | Raise _ => EmptyString end) :: nil
  | DoApplyMenu t menu ind =>
      EntryConfigure menu ind
        (match str tr T t with Ok s => s | Raise _ => EmptyString end) :: nil
  | DoAddCallback func body call =>
      if call then Call func :: flat_map (action_events tr T) body else nil
  | _ => nil
  end.

Definition callback_trace (tr : translator)
  (T : gmap string (gmap string string)) (func : callback) : list event :=
  Call (cb_id func) :: flat_map (action_events tr T) (cb_body func).

(** No statement of the call raises: every token it applies resolves, and
    so for the functions it registers. *)
Fixpoint quiet_action (tr : translator)
  (T : gmap string (gmap string string)) (a : action) : bool :=
  match a with
  | DoApply t _ | DoApplyMenu t _ _ =>
      match str tr T t with Ok _ => true | Raise _ => false end
  | DoClearMenu _ => true
  | DoAddCallback _ body _ => forallb (quiet_action tr T) body
  | DoRaise _ => false
  end.

Definition quiet_callback (tr : translator)
  (T : gmap string (gmap string string)) (func : callback) : bool :=
  forallb (quiet_action tr T) (cb_body func).

(** No brace in the string. *)
Definition brace_free (s : string) : bool :=
  all_chars (fun c => negb ((code c =? 123) || (code c =? 125))) s.

(** The number of occurrences of a character. *)
Fixpoint count_char (c : ascii) (s : string) : nat :=
  match s with
  | EmptyString => O
  | String x r => (if Ascii.eqb x c then 1 else 0) + count_char c r
  end.

(** ** Vocabulary of the statements *)

(** The token resolves, to the text [s]. *)
Definition resolves_to (tr : translator)
  (T : gmap string (gmap string string)) (t : Token) (s : string) : Prop :=
  str tr T t = Ok s.

Definition resolves (tr : translator)
  (T : gmap string (gmap string string)) (t : Token) : Prop :=
  exists s, resolves_to tr T t s.

(** The text of a token that resolves. *)
Definition text_of (tr : translator)
  (T : gmap string (gmap string string)) (t : Token) : string :=
  match str tr T t with
  | Ok s => s
  | Raise _ => EmptyString
  end.

(** The events of a complete reload, in the order of the three loops. *)
Definition widget_events (tr : translator)
  (T : gmap string (gmap string string)) (l : list (nat * Token))
  : list event :=
  map (fun entry => SetText entry.1 (text_of tr T entry.2)) l.

Definition menu_events (tr : translator)
  (T : gmap string (gmap string string))
  (l : list (nat * list (nat * Token))) : list event :=
  flat_map (fun entry : nat * list (nat * Token) =>
              map (fun item : nat * Token =>
                     EntryConfigure entry.1 item.1 (text_of tr T item.2))
                  entry.2) l.

(** What a call made by a registered function leaves: the translator and
    the tables, and the callbacks and the events of before, in front of the
    new ones. *)
Definition extends (st st' : state) : Prop :=
  _TRANSLATOR st' = _TRANSLATOR st
  /\ TRANSLATIONS st' = TRANSLATIONS st
  /\ (exists later,
        _langchange_callback st' = (_langchange_callback st ++ later)%list)
  /\ (exists evs, events st' = (events st ++ evs)%list).

(** What [__eq__] compares, class by class. *)
Definition same_fields (a b : Token) : Prop :=
  match a, b with
  | TransToken ns k p, TransToken ns' k' p' =>
      ns = ns' /\ k = k' /\ p = p'
  | PluralTransToken ns k p kp, PluralTransToken ns' k' p' kp' =>
      ns = ns' /\ k = k' /\ kp = kp' /\ p = p'
  | JoinTransToken ns k _ cs _, JoinTransToken ns' k' _ cs' _ =>
      ns = ns' /\ k = k' /\ children_eq cs cs'
  | _, _ => False
  end.

(** Every character of the string is [#]. *)
Definition only_hashes (s : string) : Prop :=
  forall i c, String.get i s = Some c -> c = "#"%char.

(** ** Data of the examples *)

Definition quoted (s : string) : string :=
  String dquote (s +:+ String dquote EmptyString).

(** A file system with one file, of a usable line and a stray bracket. *)
Definition sample_fs (path : string) : option (list string) :=
  if (path =? "basemodui.txt")%string
  then Some ((quoted "PORTAL2_PuzzleEditor_Item_Cube" +:+ " "
              +:+ quoted "Cube") :: "}" :: nil)
  else None.

Definition passthrough_ngettext (msgid1 msgid2 : string) (n : Z) : string :=
  if n =? 1 then msgid1 else msgid2.

(** A catalogue that asks for the sans-serif fonts. *)
Definition sans_serif_catalog : catalog := {|
  cat_gettext := fun message =>
    if (message =? "__LANG_USE_SANS_SERIF__")%string then "YES" else message;
  cat_ngettext := passthrough_ngettext;
|}.

(** A catalogue whose translation has a placeholder of its own. *)
Definition greeting_catalog : catalog := {|
  cat_gettext := fun message =>
    if (message =? "Hello")%string then "Bonjour {name}" else message;
  cat_ngettext := passthrough_ngettext;
|}.

Definition sample_env (tkinter : bool) : environment := {|
  expand_lang := fun lang_code => lang_code :: nil;
  open_mo := fun lang =>
    if (lang =? "ja")%string then Some sans_serif_catalog
    else if (lang =? "fr")%string then Some greeting_catalog
    else None;
  tkinter_importable := tkinter;
|}.

(** One label, one menu entry and one callback, set up under the
    passthrough translator. *)
Definition sample_state : state := {|
  _TRANSLATOR := NullTranslations;
  TRANSLATIONS := ∅;
  PROP_FLAGS_DEFAULT := ∅;
  _applied_tokens := (0%nat, ui "Hello" {[ "user" := PStr "Ann" ]}) :: nil;
  _applied_menu_tokens := (1%nat, (0%nat, ui "File" ∅) :: nil) :: nil;
  _langchange_callback :=
    {| cb_id := 7%nat; cb_body := nil |} :: nil;
  events := nil;
|}.

(** A process without widgets: one callback is registered. *)
Definition headless_state : state := {|
  _TRANSLATOR := NullTranslations;
  TRANSLATIONS := ∅;
  PROP_FLAGS_DEFAULT := ∅;
  _applied_tokens := nil;
  _applied_menu_tokens := nil;
  _langchange_callback :=
    {| cb_id := 7%nat; cb_body := nil |} :: nil;
  events := nil;
|}.

(** A callback that applies a token to a label again and registers a
    second function, and a callback that raises. *)
Definition busy_state : state := {|
  _TRANSLATOR := NullTranslations;
  TRANSLATIONS := ∅;
  PROP_FLAGS_DEFAULT := ∅;
  _applied_tokens := (0%nat, ui "Hello" ∅) :: nil;
  _applied_menu_tokens := nil;
  _langchange_callback :=
    {| cb_id := 7%nat;
       cb_body := DoApply (ui "Quit" ∅) 9
                  :: DoAddCallback 8 (DoClearMenu 1 :: nil) true :: nil |}
    :: nil;
  events := nil;
|}.

(** ** Examples *)

Example dummy_gettext_keeps_punctuation :
  DummyTranslations_gettext "Hi {name}, ok!" = "## ######, ##!".
Proof. reflexivity. Qed.

Example null_ui_formats :
  str NullTranslations ∅ (ui "Hi {name}" {[ "name" := PStr "Bob" ]})
  = Ok "Hi Bob".
Proof. reflexivity. Qed.

Example join_sorted :
  str NullTranslations ∅
    (JoinTransToken NS_UI ", " ∅ [ui "b" ∅; ui "a" ∅; untranslated "c"] true)
  = Ok "a, b, c".
Proof. reflexivity. Qed.

Example join_builds_join_token :
  join (ui ", " ∅) (ui "b" ∅ :: ui "a" ∅ :: nil) true
  = Some (JoinTransToken NS_UI ", " ∅ (ui "b" ∅ :: ui "a" ∅ :: nil) true)
  /\ join (ui_plural "item" "items" ∅) nil false = None.
Proof. split; reflexivity. Qed.

Example plural_two_items :
  str NullTranslations ∅
    (ui_plural "{n} item" "{n} items" {[ "n" := PInt 2 ]})
  = Ok "2 items".
Proof. vm_compute. reflexivity. Qed.

(** ** Basic facts *)

Lemma eqb_false_of_ne (a b : string) : a <> b -> (a =? b)%string = false.
Proof. intros H. now apply String.eqb_neq. Qed.

Lemma apply_parameters_empty (s : string) : apply_parameters s ∅ = Ok s.
Proof. reflexivity. Qed.

Lemma apply_parameters_nonempty (s : string) (p : gmap string pyobj) :
  p <> ∅ -> apply_parameters s p = format_map s p.
Proof.
  intros Hp. unfold apply_parameters.
  rewrite bool_decide_eq_false_2; auto.
Qed.

Lemma format_map_empty_string (p : gmap string pyobj) :
  format_map "" p = Ok "".
Proof. reflexivity. Qed.

Lemma length_hashes (n : nat) : String.length (hashes n) = n.
Proof. induction n as [|n IH]; simpl; congruence. Qed.

Lemma only_hashes_hashes (n : nat) : only_hashes (hashes n).
Proof.
  induction n as [|n IH]; intros i c; simpl.
  - discriminate.
  - destruct i as [|i]; [ intros [= <-]; reflexivity | apply IH ].
Qed.

Lemma lookup_Some_nonempty (p : gmap string pyobj) (k : string) (v : pyobj) :
  p !! k = Some v -> p <> ∅.
Proof. intros H ->. rewrite lookup_empty in H. discriminate. Qed.

(** ** Dummy mode *)

(** C1, as the code has it: under the dummy translator a plain token
    with a non-empty key outside the untranslated namespace resolves to one
    [#] per character of its key, whatever the characters are, and its
    parameters are not substituted; a plural token does the same once its
    [n] has been read. *)
Theorem dummy_str_is_hashes (T : gmap string (gmap string string))
  (ns k : string) (p : gmap string pyobj) :
  ns <> NS_UNTRANSLATED -> k <> "" ->
  exists s,
    str DummyTranslations T (TransToken ns k p) = Ok s
    /\ String.length s = String.length k
    /\ only_hashes s
    /\ (forall kp n, plural_n p = Ok n ->
          str DummyTranslations T (PluralTransToken ns k p kp) = Ok s).
Proof.
  intros Hns Hk. exists (hashes (String.length k)).
  assert (Hfirst : (ns =? NS_UNTRANSLATED)%string || (k =? "")%string = false).
  { now rewrite !eqb_false_of_ne. }
  repeat split.
  - simpl. unfold TransToken_str. now rewrite Hfirst.
  - apply length_hashes.
  - apply only_hashes_hashes.
  - intros kp n Hn. simpl. unfold PluralTransToken_str. rewrite Hn. simpl.
    unfold plural_select. now rewrite Hfirst.
Qed.

Lemma dummy_str_is_hashes_witness :
  NS_UI <> NS_UNTRANSLATED /\ "Hi {name}" <> "" /\
  exists s,
    str DummyTranslations ∅
        (TransToken NS_UI "Hi {name}" {[ "name" := PStr "Bob" ]}) = Ok s
    /\ String.length s = String.length "Hi {name}"
    /\ only_hashes s
    /\ (forall kp n, plural_n {[ "name" := PStr "Bob" ]} = Ok n ->
          str DummyTranslations ∅
              (PluralTransToken NS_UI "Hi {name}"
                 {[ "name" := PStr "Bob" ]} kp) = Ok s).
Proof.
  split; [discriminate|]. split; [discriminate|].
  apply (dummy_str_is_hashes ∅ NS_UI "Hi {name}" {[ "name" := PStr "Bob" ]});
    discriminate.
Defined.

(** C1 as stated fails: the token of the scenario resolves to nine [#], which
    is neither the dummy substitution of its key, formatted or not, nor the
    text of the scenario. *)
Lemma dummy_str_not_dummy_gettext :
  let t := ui "Hi {name}" {[ "name" := PStr "Bob" ]} in
  str DummyTranslations ∅ t = Ok "#########"
  /\ DummyTranslations_gettext (token t) = "## ######"
  /\ str DummyTranslations ∅ t
     <> format_map (DummyTranslations_gettext (token t)) (parameters t)
  /\ str DummyTranslations ∅ t <> Ok (DummyTranslations_gettext (token t))
  /\ str DummyTranslations ∅ t <> Ok "## Bob".
Proof. vm_compute. repeat split; discriminate. Qed.

(** ** The untranslated namespace *)

(** C2: a plain token of the untranslated namespace with no parameters
    resolves to its key under every translator and every table; with
    parameters the key itself is formatted; no translator or table is
    consulted, for a plural token of that namespace either. *)
Theorem untranslated_str_is_key (tr : translator)
  (T : gmap string (gmap string string)) (s : string)
  (p : gmap string pyobj) :
  str tr T (untranslated s) = Ok s
  /\ str tr T (TransToken NS_UNTRANSLATED s ∅) = Ok s
  /\ str tr T (TransToken NS_UNTRANSLATED s p)
     = (if bool_decide (p = ∅) then Ok s else format_map s p)
  /\ (forall tr' T',
        str tr' T' (TransToken NS_UNTRANSLATED s p)
        = str tr T (TransToken NS_UNTRANSLATED s p))
  /\ (forall tr' T' sp,
        str tr' T' (PluralTransToken NS_UNTRANSLATED s p sp)
        = str tr T (PluralTransToken NS_UNTRANSLATED s p sp)).
Proof. repeat split. Qed.

(** ** Plural tokens *)

Lemma plural_str_unfold (tr : translator)
  (T : gmap string (gmap string string)) (ns k : string)
  (p : gmap string pyobj) (kp : string) :
  str tr T (PluralTransToken ns k p kp)
  = plural_n p ≫= (fun n => plural_select tr n ns k p kp).
Proof. reflexivity. Qed.

(** C4: a plural token without an [n] parameter raises the plural error, in
    every namespace, for every key and under every translator.  Resolution
    is a function of the globals and returns none: it changes no table. *)
Theorem plural_without_n_raises (tr : translator)
  (T : gmap string (gmap string string)) (ns k : string)
  (p : gmap string pyobj) (kp : string) :
  p !! "n" = None ->
  str tr T (PluralTransToken ns k p kp) = Raise (ValueError PluralRequiresN).
Proof.
  intros Hn. rewrite plural_str_unfold. unfold plural_n. now rewrite Hn.
Qed.

Lemma plural_without_n_raises_witness :
  ({[ "count" := PInt 2 ]} : gmap string pyobj) !! "n" = None
  /\ str DummyTranslations ∅
       (PluralTransToken "pkg" "" {[ "count" := PInt 2 ]} "items")
     = Raise (ValueError PluralRequiresN).
Proof.
  split; [reflexivity|].
  apply (plural_without_n_raises DummyTranslations ∅ "pkg" ""
           {[ "count" := PInt 2 ]} "items").
  reflexivity.
Defined.

(** C5, as the code has it: a plural token of a namespace other than the UI
    and the untranslated ones, with a non-empty key and an [n] that converts
    to an integer, raises the namespace error under every translator but the
    dummy one. *)
Theorem plural_other_namespace_raises (tr : translator)
  (T : gmap string (gmap string string)) (ns k : string)
  (p : gmap string pyobj) (kp : string) (n : Z) :
  ns <> NS_UI -> ns <> NS_UNTRANSLATED -> k <> "" ->
  is_dummy tr = false ->
  plural_n p = Ok n ->
  str tr T (PluralTransToken ns k p kp)
  = Raise (ValueError (NamespaceNotAllowed ns)).
Proof.
  intros Hui Hun Hk Hd Hn. rewrite plural_str_unfold, Hn. simpl.
  unfold plural_select. now rewrite Hd, !eqb_false_of_ne.
Qed.

Lemma plural_other_namespace_raises_witness :
  "pkg" <> NS_UI /\ "pkg" <> NS_UNTRANSLATED /\ "item" <> ""
  /\ is_dummy NullTranslations = false
  /\ plural_n {[ "n" := PStr "2" ]} = Ok 2
  /\ str NullTranslations ∅
       (PluralTransToken "pkg" "item" {[ "n" := PStr "2" ]} "items")
     = Raise (ValueError (NamespaceNotAllowed "pkg")).
Proof.
  repeat (split; [first [discriminate | reflexivity]|]).
  apply (plural_other_namespace_raises NullTranslations ∅ "pkg" "item"
           {[ "n" := PStr "2" ]} "items" 2);
    first [discriminate | reflexivity].
Defined.

(** C5 as stated fails: under the dummy translator such a token resolves to
    hashes, and with an empty key it resolves to the selected key. *)
Lemma plural_other_namespace_resolves :
  str DummyTranslations ∅
      (PluralTransToken "pkg" "item" {[ "n" := PInt 2 ]} "items")
  = Ok "####"
  /\ str NullTranslations ∅
       (PluralTransToken "pkg" "" {[ "n" := PInt 2 ]} "{n} items")
     = Ok "2 items".
Proof. vm_compute. split; reflexivity. Qed.

(** C10: the [n] parameter goes through [int]: the string 1 is accepted and
    read as the integer 1, which selects the singular key; a value that
    [int] rejects raises the error of [int], which is not the plural
    error. *)
Theorem plural_n_goes_through_int (tr : translator)
  (T : gmap string (gmap string string)) (ns k : string)
  (p : gmap string pyobj) (kp : string) (v : pyobj) :
  p !! "n" = Some v ->
  (v = PStr "1" ->
     str tr T (PluralTransToken ns k p kp) = plural_select tr 1 ns k p kp
     /\ (ns = NS_UNTRANSLATED ->
           str tr T (PluralTransToken ns k p kp) = format_map k p)
     /\ (ns = NS_UI -> k <> "" ->
           str NullTranslations T (PluralTransToken ns k p kp)
           = format_map k p))
  /\ (forall e, int v = Raise e ->
        str tr T (PluralTransToken ns k p kp) = Raise e
        /\ e <> ValueError PluralRequiresN).
Proof.
  intros Hn. split.
  - intros ->.
    assert (Hp : p <> ∅) by (eapply lookup_Some_nonempty; eauto).
    assert (Hstr : forall tr', str tr' T (PluralTransToken ns k p kp)
                               = plural_select tr' 1 ns k p kp).
    { intros tr'. rewrite plural_str_unfold. unfold plural_n.
      now rewrite Hn. }
    split; [apply Hstr|]. split.
    + intros ->. rewrite Hstr. unfold plural_select. simpl.
      now apply apply_parameters_nonempty.
    + intros -> Hk. rewrite Hstr. unfold plural_select.
      rewrite (eqb_false_of_ne k "") by assumption. simpl.
      now apply apply_parameters_nonempty.
  - intros e He. split.
    + rewrite plural_str_unfold. unfold plural_n. now rewrite Hn, He.
    + intros ->. destruct v as [s|z|]; simpl in He; try discriminate.
      unfold int_of_str in He.
      destruct (match strip s with
                | String "-" r => option_map Z.opp (digits_value 0 false r)
                | String "+" r => digits_value 0 false r
                | _ => digits_value 0 false (strip s)
                end); discriminate.
Qed.

Lemma plural_n_goes_through_int_witness :
  ({[ "n" := PStr "1" ]} : gmap string pyobj) !! "n" = Some (PStr "1")
  /\ str NullTranslations ∅
       (PluralTransToken NS_UI "{n} item" {[ "n" := PStr "1" ]} "{n} items")
     = Ok "1 item"
  /\ ({[ "n" := PStr "many" ]} : gmap string pyobj) !! "n"
     = Some (PStr "many")
  /\ str NullTranslations ∅
       (PluralTransToken NS_UI "{n} item" {[ "n" := PStr "many" ]}
          "{n} items")
     = Raise (ValueError (InvalidIntLiteral "many")).
Proof.
  assert (H1 : ({[ "n" := PStr "1" ]} : gmap string pyobj) !! "n"
               = Some (PStr "1")) by reflexivity.
  assert (H2 : ({[ "n" := PStr "many" ]} : gmap string pyobj) !! "n"
               = Some (PStr "many")) by reflexivity.
  split; [exact H1|]. split.
  - destruct (plural_n_goes_through_int NullTranslations ∅ NS_UI "{n} item"
                {[ "n" := PStr "1" ]} "{n} items" (PStr "1") H1)
      as [Hone _].
    destruct (Hone eq_refl) as (_ & _ & Hui).
    rewrite Hui; [reflexivity | reflexivity | discriminate].
  - split; [exact H2|].
    destruct (plural_n_goes_through_int NullTranslations ∅ NS_UI "{n} item"
                {[ "n" := PStr "many" ]} "{n} items" (PStr "many") H2)
      as [_ Hbad].
    apply (Hbad (ValueError (InvalidIntLiteral "many"))). reflexivity.
Defined.

(** ** Blank tokens *)

(** C6, as the code has it: a token of any class whose key is empty or all
    whitespace is falsy, and a plain token whose key is the empty string
    resolves to the empty string under every translator, every table and
    every parameters. *)
Theorem blank_token_is_falsy (tr : translator)
  (T : gmap string (gmap string string)) (t : Token) :
  token t = "" \/ isspace (token t) = true ->
  Token_bool t = false
  /\ (forall ns p, t = TransToken ns "" p -> str tr T t = Ok "").
Proof.
  intros Hblank. split.
  - unfold Token_bool. destruct Hblank as [-> | ->]; simpl.
    + reflexivity.
    + apply andb_false_r.
  - intros ns p ->. simpl. unfold TransToken_str.
    rewrite orb_true_r. unfold apply_parameters.
    destruct (bool_decide (p = ∅)); reflexivity.
Qed.

Lemma blank_token_is_falsy_witness :
  (token (ui "" {[ "x" := PNone ]}) = ""
   \/ isspace (token (ui "" {[ "x" := PNone ]})) = true)
  /\ Token_bool (ui "" {[ "x" := PNone ]}) = false
  /\ str DummyTranslations ∅ (ui "" {[ "x" := PNone ]}) = Ok "".
Proof.
  split; [left; reflexivity|].
  destruct (blank_token_is_falsy DummyTranslations ∅
              (ui "" {[ "x" := PNone ]}) (or_introl eq_refl)) as [Hb Hs].
  split; [exact Hb|]. apply (Hs NS_UI {[ "x" := PNone ]}). reflexivity.
Defined.

(** C6 as stated fails: a key of two spaces is falsy but resolves to the two
    spaces under the passthrough translator and to two hashes under the
    dummy one. *)
Lemma whitespace_token_resolves_to_itself :
  isspace "  " = true
  /\ Token_bool (ui "  " ∅) = false
  /\ str NullTranslations ∅ (ui "  " ∅) = Ok "  "
  /\ str DummyTranslations ∅ (ui "  " ∅) = Ok "##"
  /\ str NullTranslations ∅ (ui "  " ∅) <> Ok "".
Proof. vm_compute. repeat split; discriminate. Qed.

(** ** Join tokens *)

Lemma TransToken_str_without_parameters (tr : translator)
  (T : gmap string (gmap string string)) (ns k : string) :
  exists sep, TransToken_str tr T ns k ∅ = Ok sep.
Proof.
  unfold TransToken_str.
  destruct ((ns =? NS_UNTRANSLATED)%string || (k =? "")%string);
    [eexists; reflexivity|].
  destruct (is_dummy tr); [eexists; reflexivity|].
  destruct (ns =? NS_UI)%string; eexists; reflexivity.
Qed.

Lemma join_str_unfold (tr : translator)
  (T : gmap string (gmap string string)) (ns k : string)
  (p : gmap string pyobj) (srt : bool) (sep : string) :
  TransToken_str tr T ns k p = Ok sep ->
  str tr T (JoinTransToken ns k p nil srt) = Ok ""
  /\ forall a, str tr T (JoinTransToken ns k p (a :: nil) srt) = str tr T a.
Proof.
  intros Hsep. split.
  - simpl. rewrite Hsep. simpl. now destruct srt.
  - intros a. change (str tr T (JoinTransToken ns k p (a :: nil) srt))
      with (TransToken_str tr T ns k p ≫= fun sep' =>
              (str tr T a ≫= fun s => Ok nil ≫= fun rest => Ok (s :: rest))
              ≫= fun items =>
              Ok (String.concat sep'
                    (if srt then sort_strings items else items))).
    rewrite Hsep. simpl. destruct (str tr T a) as [s|e]; simpl.
    + now destruct srt.
    + reflexivity.
Qed.

(** C9, as the code has it: when the separator of a join token resolves, as
    it always does without parameters, the join of no child is the empty
    string and the join of one child is the outcome of that child, sorted or
    not, under every translator and every table. *)
Theorem join_of_none_and_one (tr : translator)
  (T : gmap string (gmap string string)) (ns k : string)
  (p : gmap string pyobj) (srt : bool) (a : Token) :
  p = ∅ \/ resolves tr T (TransToken ns k p) ->
  str tr T (JoinTransToken ns k p nil srt) = Ok ""
  /\ str tr T (JoinTransToken ns k p (a :: nil) srt) = str tr T a.
Proof.
  intros Hsep.
  assert (Hok : exists sep, TransToken_str tr T ns k p = Ok sep).
  { destruct Hsep as [-> | [sep Hsep]].
    - apply TransToken_str_without_parameters.
    - now exists sep. }
  destruct Hok as [sep Hok].
  destruct (join_str_unfold tr T ns k p srt sep Hok) as [Hnil Hone].
  split; [exact Hnil | apply Hone].
Qed.

Lemma join_of_none_and_one_witness :
  (({[ "x" := PStr "-" ]} : gmap string pyobj) = ∅
   \/ resolves DummyTranslations ∅
        (TransToken NS_UNTRANSLATED " {x} " {[ "x" := PStr "-" ]}))
  /\ str DummyTranslations ∅
       (JoinTransToken NS_UNTRANSLATED " {x} " {[ "x" := PStr "-" ]}
          nil true) = Ok ""
  /\ str DummyTranslations ∅
       (JoinTransToken NS_UNTRANSLATED " {x} " {[ "x" := PStr "-" ]}
          (ui "Save" ∅ :: nil) true)
     = str DummyTranslations ∅ (ui "Save" ∅).
Proof.
  assert (H : ({[ "x" := PStr "-" ]} : gmap string pyobj) = ∅
              \/ resolves DummyTranslations ∅
                   (TransToken NS_UNTRANSLATED " {x} "
                      {[ "x" := PStr "-" ]})).
  { right. exists " - ". reflexivity. }
  split; [exact H|].
  apply (join_of_none_and_one DummyTranslations ∅ NS_UNTRANSLATED " {x} "
           {[ "x" := PStr "-" ]} true (ui "Save" ∅) H).
Defined.

(** C9 as stated fails for a separator that does not resolve: its error is
    the outcome of the join, with no child and with one. *)
Lemma join_with_failing_separator :
  let sep_params : gmap string pyobj := {[ "y" := PStr "1" ]} in
  str NullTranslations ∅ (JoinTransToken NS_UI "{x}" sep_params nil false)
  = Raise (KeyError "x")
  /\ str NullTranslations ∅
       (JoinTransToken NS_UI "{x}" sep_params (ui "Save" ∅ :: nil) false)
     = Raise (KeyError "x")
  /\ str NullTranslations ∅ (ui "Save" ∅) = Ok "Save".
Proof. vm_compute. repeat split. Qed.

(** ** Equality and hashing of tokens *)

Lemma children_list_eq (cs cs' : list Token) :
  (fix list_eq (l l' : list Token) : bool :=
     match l, l' with
     | nil, nil => true
     | c :: r, c' :: r' => Token_eq c c' && list_eq r r'
     | _, _ => false
     end) cs cs' = true
  <-> children_eq cs cs'.
Proof.
  unfold children_eq. revert cs'.
  induction cs as [|c cs IH]; intros [|c' cs'].
  - split; [constructor | reflexivity].
  - split; [discriminate | intros H; inversion H].
  - split; [discriminate | intros H; inversion H].
  - split; intros H.
    + apply andb_true_iff in H as [Hc Hr]. constructor; [exact Hc|].
      now apply IH.
    + inversion H as [|? ? ? ? Hc Hr]; subst.
      apply andb_true_iff. split; [exact Hc|]. now apply IH.
Qed.

Lemma Token_eq_same_fields (a b : Token) :
  Token_eq a b = true <-> same_fields a b.
Proof.
  destruct a as [ns k p|ns k p kp|ns k p cs srt],
           b as [ns' k' p'|ns' k' p' kp'|ns' k' p' cs' srt'];
    simpl; try (split; [discriminate | tauto]).
  - rewrite !andb_true_iff, !String.eqb_eq, bool_decide_eq_true. tauto.
  - rewrite !andb_true_iff, !String.eqb_eq, bool_decide_eq_true. tauto.
  - rewrite !andb_true_iff, !String.eqb_eq, children_list_eq. tauto.
Qed.

Section Hash_of_equal_tokens.
Variable hash_str : string -> Z.
Variable hash_tuple : list Z -> Z.
Variable hash_items : gmap string pyobj -> Z.

Local Abbreviation hash := (Token_hash hash_str hash_tuple hash_items).

Lemma children_eq_hashes (cs cs' : list Token) :
  Forall (fun c => forall b, Token_eq c b = true -> hash c = hash b) cs ->
  children_eq cs cs' -> map hash cs = map hash cs'.
Proof.
  intros Hall Heq. induction Heq as [|c c' cs cs' Hc _ IH]; [reflexivity|].
  inversion Hall as [|? ? Hhead Htail]; subst. simpl.
  rewrite (Hhead c' Hc), (IH Htail). reflexivity.
Qed.

Lemma Token_eq_hash (a : Token) :
  forall b, Token_eq a b = true -> hash a = hash b.
Proof.
  induction a as [ns k p|ns k p kp|ns k p cs srt IH]
    using Token_children_ind;
    intros b Heq; apply Token_eq_same_fields in Heq;
    destruct b as [ns' k' p'|ns' k' p' kp'|ns' k' p' cs' srt'];
    simpl in Heq; try contradiction.
  - destruct Heq as (-> & -> & ->). reflexivity.
  - destruct Heq as (-> & -> & -> & ->). reflexivity.
  - destruct Heq as (-> & -> & Hcs). simpl.
    now rewrite (children_eq_hashes cs cs' IH Hcs).
Qed.
End Hash_of_equal_tokens.

Lemma Token_eq_refl (a : Token) : Token_eq a a = true.
Proof.
  induction a as [ns k p|ns k p kp|ns k p cs srt IH] using Token_children_ind;
    apply Token_eq_same_fields; simpl; repeat split.
  unfold children_eq. induction IH as [|c cs Hc _ IHcs]; constructor; auto.
Qed.

(** C3, as the code has it: two tokens are equal exactly when they are of
    the same class and agree on the fields their class compares: namespace,
    key and parameters for a plain token, the plural key as well for a plural
    token, and namespace, key and children in sequence, but neither
    parameters nor sort flag, for a join token.  Parameters are compared as
    mappings, so the order of insertion does not count, and a token equals
    itself.  Equal tokens have equal hashes. *)
Theorem Token_eq_compares_fields
  (hash_str : string -> Z) (hash_tuple : list Z -> Z)
  (hash_items : gmap string pyobj -> Z) (a b : Token) :
  (Token_eq a b = true <-> same_fields a b)
  /\ (Token_eq a b = true ->
        Token_hash hash_str hash_tuple hash_items a
        = Token_hash hash_str hash_tuple hash_items b)
  /\ Token_eq a a = true
  /\ (forall ns k (base : gmap string pyobj) k1 v1 k2 v2, k1 <> k2 ->
        Token_eq (TransToken ns k (<[k1:=v1]> (<[k2:=v2]> base)))
                 (TransToken ns k (<[k2:=v2]> (<[k1:=v1]> base))) = true).
Proof.
  split; [apply Token_eq_same_fields|]. split; [apply Token_eq_hash|].
  split; [apply Token_eq_refl|].
  intros ns k base k1 v1 k2 v2 Hne. apply Token_eq_same_fields. simpl.
  repeat split. now apply insert_insert_ne.
Qed.

Lemma Token_eq_compares_fields_witness :
  let a := JoinTransToken NS_UI ", " ∅ (ui "Save" ∅ :: nil) false in
  let b := JoinTransToken NS_UI ", " ∅ (ui "Save" ∅ :: nil) true in
  Token_eq a b = true
  /\ same_fields a b
  /\ Token_hash (fun s => Z.of_nat (String.length s)) (fold_right Z.add 0)
       (fun m => Z.of_nat (size m)) a
     = Token_hash (fun s => Z.of_nat (String.length s)) (fold_right Z.add 0)
         (fun m => Z.of_nat (size m)) b.
Proof.
  intros a b.
  destruct (Token_eq_compares_fields
              (fun s => Z.of_nat (String.length s)) (fold_right Z.add 0)
              (fun m => Z.of_nat (size m)) a b) as (Hiff & Hhash & _ & _).
  assert (Heq : Token_eq a b = true) by reflexivity.
  split; [exact Heq|]. split; [now apply Hiff | now apply Hhash].
Defined.

(** C3 as stated fails on join tokens: two of them that differ in their
    parameters are equal. *)
Lemma join_eq_ignores_parameters :
  let a := JoinTransToken NS_UI "{x}" {[ "x" := PStr ", " ]} nil false in
  let b := JoinTransToken NS_UI "{x}" {[ "x" := PStr "; " ]} nil false in
  Token_eq a b = true /\ parameters a <> parameters b.
Proof.
  split; [reflexivity|]. simpl. intros H.
  apply (f_equal (fun m : gmap string pyobj => m !! "x")) in H.
  vm_compute in H. discriminate.
Qed.

(** ** Loading the game translations *)

Lemma load_basemodui_loaded (fs : string -> option (list string))
  (loc : string) (T : gmap string (gmap string string)) :
  is_Some (T !! NS_GAME) -> load_basemodui fs loc T = T.
Proof. intros [table H]. unfold load_basemodui. now rewrite H. Qed.

(** C7, as the code has it: a call that finds its file leaves the game
    table set, and every later call is then a no-op whatever its argument
    and whatever the files have become; a call whose file is missing raises
    nothing and leaves the tables as they were. *)
Theorem load_basemodui_once (fs fs' : string -> option (list string))
  (loc loc' : string) (T : gmap string (gmap string string)) :
  (is_Some (fs loc) \/ is_Some (T !! NS_GAME) ->
     is_Some (load_basemodui fs loc T !! NS_GAME)
     /\ load_basemodui fs' loc' (load_basemodui fs loc T)
        = load_basemodui fs loc T)
  /\ (fs loc = None -> load_basemodui fs loc T = T).
Proof.
  split.
  - intros H.
    assert (Hset : is_Some (load_basemodui fs loc T !! NS_GAME)).
    { unfold load_basemodui.
      destruct (T !! NS_GAME) as [table|] eqn:HT; [rewrite HT; eauto|].
      destruct H as [[lines Hl] | [x Hx]]; [|discriminate].
      rewrite Hl, lookup_insert_eq. eauto. }
    split; [exact Hset | now apply load_basemodui_loaded].
  - intros Hm. unfold load_basemodui. rewrite Hm.
    now destruct (T !! NS_GAME).
Qed.

Lemma load_basemodui_once_witness :
  (is_Some (sample_fs "basemodui.txt")
   \/ is_Some ((∅ : gmap string (gmap string string)) !! NS_GAME))
  /\ load_basemodui (fun _ => None) "other.txt"
       (load_basemodui sample_fs "basemodui.txt" ∅)
     = load_basemodui sample_fs "basemodui.txt" ∅
  /\ load_basemodui sample_fs "basemodui.txt" ∅ !! NS_GAME
     = Some {[ "PORTAL2_PuzzleEditor_Item_Cube" := "Cube" ]}
  /\ sample_fs "missing.txt" = None
  /\ load_basemodui sample_fs "missing.txt" ∅ = ∅.
Proof.
  assert (H : is_Some (sample_fs "basemodui.txt")
              \/ is_Some ((∅ : gmap string (gmap string string)) !! NS_GAME)).
  { left. eexists. reflexivity. }
  split; [exact H|]. split; [|split; [reflexivity|]].
  - apply (load_basemodui_once sample_fs (fun _ => None)
             "basemodui.txt" "other.txt" ∅); exact H.
  - split; [reflexivity|].
    apply (load_basemodui_once sample_fs sample_fs
             "missing.txt" "missing.txt" ∅). reflexivity.
Defined.

(** C7 as stated fails after a call whose file was missing: the game table
    is still unset, and the next call loads the file it finds. *)
Lemma load_basemodui_after_missing_file :
  let T1 := load_basemodui sample_fs "missing.txt" ∅ in
  T1 = ∅
  /\ load_basemodui sample_fs "basemodui.txt" T1 !! NS_GAME
     = Some {[ "PORTAL2_PuzzleEditor_Item_Cube" := "Cube" ]}
  /\ load_basemodui sample_fs "basemodui.txt" T1 <> T1.
Proof.
  split; [reflexivity|]. split; [reflexivity|].
  intros H. apply (f_equal (fun m => m !! NS_GAME)) in H.
  vm_compute in H. discriminate.
Qed.

(** ** The calls of the registered functions *)

Lemma extends_refl (st : state) : extends st st.
Proof.
  repeat split; exists nil; now rewrite app_nil_r.
Qed.

Lemma extends_trans (st1 st2 st3 : state) :
  extends st1 st2 -> extends st2 st3 -> extends st1 st3.
Proof.
  intros (Htr & HT & [l Hl] & [e He]) (Htr' & HT' & [l' Hl'] & [e' He']).
  repeat split; try congruence.
  - exists (l ++ l')%list. rewrite Hl', Hl. now rewrite <- app_assoc.
  - exists (e ++ e')%list. rewrite He', He. now rewrite <- app_assoc.
Qed.

Lemma add_events_extends (evs : list event) (st : state) :
  extends st (add_events evs st).
Proof.
  repeat split; simpl; [exists nil; now rewrite app_nil_r | now exists evs].
Qed.

Lemma apply_extends (t : Token) (widget : nat) (st : state) :
  extends st (apply t widget st).1.
Proof.
  unfold apply. destruct (str _ _ t); simpl; [|apply extends_refl].
  repeat split; simpl; [exists nil; now rewrite app_nil_r | eauto].
Qed.

Lemma apply_menu_extends (t : Token) (menu ind : nat) (st : state) :
  extends st (apply_menu t menu ind st).1.
Proof.
  unfold apply_menu. destruct (str _ _ t); simpl;
    repeat split; simpl;
    try (exists nil; now rewrite app_nil_r); eauto.
Qed.

Lemma run_seq_extends (body : list action) :
  Forall (fun a => forall st, extends st (run_action a st).1) body ->
  forall st, extends st (run_seq run_action body st).1.
Proof.
  induction 1 as [|a body Ha _ IH]; intros st; simpl.
  - apply extends_refl.
  - pose proof (Ha st) as Hst.
    destruct (run_action a st) as [st1 [[]|e]]; simpl in *.
    + eapply extends_trans; [exact Hst | apply IH].
    + exact Hst.
Qed.

Lemma run_action_extends (a : action) :
  forall st, extends st (run_action a st).1.
Proof.
  induction a as [t w|t m i|m|func body call IH|e] using action_body_ind;
    intros st; simpl.
  - apply apply_extends.
  - apply apply_menu_extends.
  - repeat split; simpl; exists nil; now rewrite app_nil_r.
  - destruct call.
    + eapply extends_trans; [|apply (run_seq_extends body IH)].
      repeat split; simpl; eauto.
    + repeat split; simpl; eauto. exists nil. now rewrite app_nil_r.
  - apply extends_refl.
Qed.

Lemma run_callback_extends (func : callback) (st : state) :
  extends st (run_callback func st).1.
Proof.
  unfold run_callback.
  eapply extends_trans; [apply (add_events_extends (Call (cb_id func) :: nil))|].
  apply run_seq_extends. apply Forall_forall. intros a _.
  apply run_action_extends.
Qed.

(** A call that ends without raising has registered the functions of
    [registered], in that order. *)
Lemma run_seq_registered (body : list action) :
  Forall (fun a => forall st st', run_action a st = (st', Ok tt) ->
            _langchange_callback st'
            = (_langchange_callback st ++ registered a)%list) body ->
  forall st st', run_seq run_action body st = (st', Ok tt) ->
    _langchange_callback st'
    = (_langchange_callback st ++ flat_map registered body)%list.
Proof.
  induction 1 as [|a body Ha _ IH]; intros st st' Hrun; simpl in *.
  - injection Hrun as <-. now rewrite app_nil_r.
  - destruct (run_action a st) as [st1 [[]|e]] eqn:E; [|discriminate].
    rewrite (IH _ _ Hrun), (Ha _ _ E). now rewrite <- app_assoc.
Qed.

Lemma run_action_registered (a : action) :
  forall st st', run_action a st = (st', Ok tt) ->
    _langchange_callback st'
    = (_langchange_callback st ++ registered a)%list.
Proof.
  induction a as [t w|t m i|m|func body call IH|e] using action_body_ind;
    intros st st' Hrun; simpl in *.
  - unfold apply in Hrun. destruct (str _ _ t); [|discriminate].
    injection Hrun as <-. simpl. now rewrite app_nil_r.
  - unfold apply_menu in Hrun. destruct (str _ _ t); [|discriminate].
    injection Hrun as <-. simpl. now rewrite app_nil_r.
  - injection Hrun as <-. simpl. now rewrite app_nil_r.
  - destruct call.
    + rewrite (run_seq_registered body IH _ _ Hrun). simpl.
      now rewrite <- app_assoc.
    + injection Hrun as <-. reflexivity.
  - discriminate.
Qed.

Lemma run_callback_registered (func : callback) (st st' : state) :
  run_callback func st = (st', Ok tt) ->
  _langchange_callback st'
  = (_langchange_callback st ++ callback_registers func)%list.
Proof.
  unfold run_callback. intros Hrun.
  apply run_seq_registered in Hrun; [exact Hrun|].
  apply Forall_forall. intros a _. apply run_action_registered.
Qed.

(** A call none of whose statements raises ends without raising, with the
    events of [action_events]. *)
Lemma run_seq_quiet (tr : translator)
  (T : gmap string (gmap string string)) (body : list action) :
  Forall (fun a => quiet_action tr T a = true ->
            forall st, _TRANSLATOR st = tr -> TRANSLATIONS st = T ->
            exists st', run_action a st = (st', Ok tt)
              /\ events st' = (events st ++ action_events tr T a)%list) body ->
  forallb (quiet_action tr T) body = true ->
  forall st, _TRANSLATOR st = tr -> TRANSLATIONS st = T ->
  exists st', run_seq run_action body st = (st', Ok tt)
    /\ events st'
       = (events st ++ flat_map (action_events tr T) body)%list.
Proof.
  induction 1 as [|a body Ha _ IH]; intros Hq st Htr HT; simpl in *.
  - exists st. now rewrite app_nil_r.
  - apply andb_true_iff in Hq as [Hqa Hqb].
    destruct (Ha Hqa st Htr HT) as (st1 & Hrun & Hev).
    pose proof (run_action_extends a st) as (Htr1 & HT1 & _).
    rewrite Hrun in *. simpl in *.
    destruct (IH Hqb st1) as (st' & Hrun' & Hev'); [congruence..|].
    exists st'. split; [exact Hrun'|].
    rewrite Hev', Hev. now rewrite <- app_assoc.
Qed.

Lemma run_action_quiet (tr : translator)
  (T : gmap string (gmap string string)) (a : action) :
  quiet_action tr T a = true ->
  forall st, _TRANSLATOR st = tr -> TRANSLATIONS st = T ->
  exists st', run_action a st = (st', Ok tt)
    /\ events st' = (events st ++ action_events tr T a)%list.
Proof.
  induction a as [t w|t m i|m|func body call IH|e] using action_body_ind;
    intros Hq st Htr HT; simpl in *.
  - unfold apply. rewrite Htr, HT.
    destruct (str tr T t); [|discriminate]. eexists. split; reflexivity.
  - unfold apply_menu. rewrite Htr, HT.
    destruct (str tr T t); [|discriminate]. eexists. split; reflexivity.
  - eexists. split; [reflexivity|]. simpl. now rewrite app_nil_r.
  - destruct call.
    + edestruct (run_seq_quiet tr T body IH Hq) as (st' & Hrun & Hev);
        [| |exists st'; split; [exact Hrun|]]; simpl; try assumption.
      rewrite Hev. simpl. now rewrite <- app_assoc.
    + eexists. split; [reflexivity|]. simpl. now rewrite app_nil_r.
  - discriminate.
Qed.

Lemma run_callback_quiet (tr : translator)
  (T : gmap string (gmap string string)) (func : callback) (st : state) :
  quiet_callback tr T func = true ->
  _TRANSLATOR st = tr -> TRANSLATIONS st = T ->
  exists st', run_callback func st = (st', Ok tt)
    /\ events st' = (events st ++ callback_trace tr T func)%list.
Proof.
  intros Hq Htr HT. unfold run_callback, callback_trace.
  edestruct (run_seq_quiet tr T (cb_body func)) as (st' & Hrun & Hev);
    [| exact Hq | | |exists st'; split; [exact Hrun|]]; simpl;
    try assumption.
  - apply Forall_forall. intros a _. apply run_action_quiet.
  - rewrite Hev. simpl. now rewrite <- app_assoc.
Qed.

Lemma quiet_registered (tr : translator)
  (T : gmap string (gmap string string)) (a : action) :
  quiet_action tr T a = true ->
  Forall (fun func => quiet_callback tr T func = true) (registered a).
Proof.
  induction a as [t w|t m i|m|func body call IH|e] using action_body_ind;
    simpl; intros Hq; try constructor.
  - exact Hq.
  - destruct call; [|constructor].
    apply Forall_forall. intros c Hc.
    apply list_elem_of_In, in_flat_map in Hc as (a & Ha & Hc).
    rewrite forallb_forall in Hq. rewrite Forall_forall in IH.
    specialize (IH a (proj2 (list_elem_of_In _ _) Ha) (Hq a Ha)).
    rewrite Forall_forall in IH. apply IH. now apply list_elem_of_In.
Qed.

Lemma quiet_callback_registers (tr : translator)
  (T : gmap string (gmap string string)) (func : callback) :
  quiet_callback tr T func = true ->
  Forall (fun c => quiet_callback tr T c = true) (callback_registers func).
Proof.
  unfold quiet_callback, callback_registers. intros Hq.
  apply Forall_forall. intros c Hc.
  apply list_elem_of_In, in_flat_map in Hc as (a & Ha & Hc).
  rewrite forallb_forall in Hq.
  pose proof (quiet_registered tr T a (Hq a Ha)) as H.
  rewrite Forall_forall in H. apply H. now apply list_elem_of_In.
Qed.

Lemma loop_fuel_app (l l' : list callback) :
  loop_fuel (l ++ l') = (loop_fuel l + loop_fuel l')%nat.
Proof. unfold loop_fuel. now rewrite map_app, list_sum_app. Qed.

Lemma action_weight_registered (a : action) :
  action_weight a = loop_fuel (registered a).
Proof.
  induction a as [t w|t m i|m|func body call IH|e] using action_body_ind;
    simpl; try reflexivity.
  assert (Hsum : list_sum (map action_weight body)
                 = loop_fuel (flat_map registered body)).
  { induction IH as [|a body Ha _ IHb]; simpl; [reflexivity|].
    now rewrite loop_fuel_app, Ha, IHb. }
  destruct call; unfold loop_fuel in *; simpl; unfold callback_weight; simpl.
  - rewrite Hsum. reflexivity.
  - lia.
Qed.

Lemma callback_weight_registers (func : callback) :
  callback_weight func = S (loop_fuel (callback_registers func)).
Proof.
  unfold callback_weight, callback_registers. f_equal.
  induction (cb_body func) as [|a body IH]; simpl; [reflexivity|].
  now rewrite loop_fuel_app, action_weight_registered, IH.
Qed.

Lemma loop_fuel_0 (l : list callback) : loop_fuel l = O -> l = nil.
Proof. destruct l; [reflexivity|]. unfold loop_fuel, callback_weight. simpl. lia. Qed.

(** The fuel of the loop is enough: with more of it the loop ends the same
    way. *)
Lemma callback_loop_fuel (fuel : nat) :
  forall i st extra,
    (loop_fuel (drop i (_langchange_callback st)) <= fuel)%nat ->
    callback_loop (fuel + extra) i st = callback_loop fuel i st.
Proof.
  induction fuel as [|fuel IH]; intros i st extra Hfuel.
  - assert (Hnil : drop i (_langchange_callback st) = nil)
      by (apply loop_fuel_0; lia).
    assert (Hnone : _langchange_callback st !! i = None).
    { apply lookup_ge_None. apply (f_equal length) in Hnil.
      rewrite length_drop in Hnil. simpl in Hnil. lia. }
    destruct extra; simpl; [reflexivity|]. now rewrite Hnone.
  - simpl. destruct (_langchange_callback st !! i) as [func|] eqn:Hi;
      [|reflexivity].
    destruct (run_callback func st) as [st1 [[]|e]] eqn:Hrun; [|reflexivity].
    apply IH.
    rewrite (run_callback_registered func st st1 Hrun).
    rewrite (drop_S _ _ _ Hi) in Hfuel.
    rewrite drop_app_le by (apply lookup_lt_Some in Hi; lia).
    rewrite loop_fuel_app.
    change (loop_fuel (func :: ?l)) with (callback_weight func + loop_fuel l)%nat
      in Hfuel.
    rewrite callback_weight_registers in Hfuel. lia.
Qed.

Lemma callback_loop_quiet (tr : translator)
  (T : gmap string (gmap string string)) (fuel : nat) :
  forall i st,
    _TRANSLATOR st = tr -> TRANSLATIONS st = T ->
    Forall (fun func => quiet_callback tr T func = true)
      (drop i (_langchange_callback st)) ->
    (loop_fuel (drop i (_langchange_callback st)) <= fuel)%nat ->
    exists st',
      callback_loop fuel i st = (st', Ok tt)
      /\ _TRANSLATOR st' = tr
      /\ events st'
         = (events st
            ++ flat_map (callback_trace tr T)
                 (drop i (_langchange_callback st')))%list
      /\ _langchange_callback st'
         = (_langchange_callback st
            ++ flat_map callback_registers
                 (drop i (_langchange_callback st')))%list.
Proof.
  induction fuel as [|fuel IH]; intros i st Htr HT Hq Hfuel.
  - assert (Hnil : drop i (_langchange_callback st) = nil)
      by (apply loop_fuel_0; lia).
    exists st. simpl. rewrite Hnil. simpl. now rewrite !app_nil_r.
  - simpl. destruct (_langchange_callback st !! i) as [func|] eqn:Hi.
    + rewrite (drop_S _ _ _ Hi) in Hq, Hfuel.
      apply Forall_cons in Hq as [Hqf Hqr].
      destruct (run_callback_quiet tr T func st Hqf Htr HT)
        as (st1 & Hrun & Hev1).
      pose proof (run_callback_registered func st st1 Hrun) as Hcb1.
      pose proof (run_callback_extends func st) as (Htr1 & HT1 & _).
      rewrite Hrun in *. simpl in Htr1, HT1.
      assert (Hlt : (S i <= length (_langchange_callback st))%nat)
        by (apply lookup_lt_Some in Hi; lia).
      destruct (IH (S i) st1) as (st' & Hloop & Htr' & Hev' & Hcb');
        try congruence.
      * rewrite Hcb1, drop_app_le by exact Hlt.
        apply Forall_app. split; [exact Hqr|].
        now apply quiet_callback_registers.
      * rewrite Hcb1, drop_app_le by exact Hlt. rewrite loop_fuel_app.
        change (loop_fuel (func :: ?l))
          with (callback_weight func + loop_fuel l)%nat in Hfuel.
        rewrite callback_weight_registers in Hfuel. lia.
      * exists st'. split; [exact Hloop|]. split; [exact Htr'|].
        assert (Hi' : _langchange_callback st' !! i = Some func).
        { rewrite Hcb', Hcb1, <- app_assoc.
          now apply lookup_app_l_Some. }
        rewrite (drop_S _ _ _ Hi'). simpl. split.
        -- rewrite Hev', Hev1. now rewrite <- app_assoc.
        -- rewrite Hcb' at 1. rewrite Hcb1. now rewrite <- app_assoc.
    + assert (Hnil : drop i (_langchange_callback st) = nil).
      { apply drop_ge. now apply lookup_ge_None. }
      exists st. rewrite Hnil. simpl. now rewrite !app_nil_r.
Qed.

(** ** Changing the language *)

Lemma for_each_all_ok {A} (body : A -> io unit) (ev : A -> list event)
  (l : list A) :
  Forall (fun x => body x = (ev x, Ok tt)) l ->
  for_each body l = (flat_map ev l, Ok tt).
Proof.
  induction 1 as [|x l Hx _ IH]; [reflexivity|].
  simpl. rewrite Hx. simpl. rewrite IH. reflexivity.
Qed.

Lemma flat_map_singleton {A B} (f : A -> B) (l : list A) :
  flat_map (fun x => f x :: nil) l = map f l.
Proof. induction l as [|x l IH]; simpl; congruence. Qed.

Lemma reload_widget_ok (tr : translator)
  (T : gmap string (gmap string string)) (entry : nat * Token) :
  resolves tr T entry.2 ->
  reload_widget tr T entry
  = (SetText entry.1 (text_of tr T entry.2) :: nil, Ok tt).
Proof.
  intros [s Hs]. unfold reload_widget, text_of. unfold resolves_to in Hs.
  now rewrite Hs.
Qed.

Lemma reload_menu_ok (tr : translator)
  (T : gmap string (gmap string string))
  (entry : nat * list (nat * Token)) :
  Forall (fun item : nat * Token => resolves tr T item.2) entry.2 ->
  reload_menu tr T entry
  = (map (fun item : nat * Token =>
            EntryConfigure entry.1 item.1 (text_of tr T item.2)) entry.2,
     Ok tt).
Proof.
  intros Hall. unfold reload_menu. rewrite <- flat_map_singleton.
  apply for_each_all_ok.
  eapply Forall_impl; [exact Hall|]. intros item [s Hs]. simpl.
  unfold text_of. unfold resolves_to in Hs. now rewrite Hs.
Qed.

Lemma reload_widgets_ok (tr : translator)
  (T : gmap string (gmap string string)) (l : list (nat * Token)) :
  Forall (fun entry : nat * Token => resolves tr T entry.2) l ->
  for_each (reload_widget tr T) l = (widget_events tr T l, Ok tt).
Proof.
  intros Hw. unfold widget_events. rewrite <- flat_map_singleton.
  apply for_each_all_ok.
  eapply Forall_impl; [exact Hw|]. intros entry. apply reload_widget_ok.
Qed.

Lemma reload_menus_ok (tr : translator)
  (T : gmap string (gmap string string))
  (l : list (nat * list (nat * Token))) :
  Forall (fun entry : nat * list (nat * Token) =>
            Forall (fun item : nat * Token => resolves tr T item.2) entry.2)
    l ->
  for_each (reload_menu tr T) l = (menu_events tr T l, Ok tt).
Proof.
  intros Hm. unfold menu_events. apply for_each_all_ok.
  eapply Forall_impl; [exact Hm|]. intros entry. apply reload_menu_ok.
Qed.

Lemma reload_localisations_ok (st : state) :
  let tr := _TRANSLATOR st in
  let T := TRANSLATIONS st in
  Forall (fun entry : nat * Token => resolves tr T entry.2)
    (_applied_tokens st) ->
  Forall (fun entry : nat * list (nat * Token) =>
            Forall (fun item : nat * Token => resolves tr T item.2) entry.2)
    (_applied_menu_tokens st) ->
  Forall (fun func => quiet_callback tr T func = true)
    (_langchange_callback st) ->
  exists st',
    reload_localisations st = (st', Ok tt)
    /\ _TRANSLATOR st' = tr
    /\ events st'
       = (events st
          ++ widget_events tr T (_applied_tokens st)
          ++ menu_events tr T (_applied_menu_tokens st)
          ++ flat_map (callback_trace tr T) (_langchange_callback st'))%list
    /\ _langchange_callback st'
       = (_langchange_callback st
          ++ flat_map callback_registers (_langchange_callback st'))%list.
Proof.
  intros tr T Hw Hm Hc. unfold reload_localisations. fold tr T.
  rewrite (reload_widgets_ok tr T _ Hw). simpl.
  rewrite (reload_menus_ok tr T _ Hm). simpl.
  set (st1 := add_events _ st).
  pose proof (callback_loop_quiet tr T (loop_fuel (_langchange_callback st1))
                0 st1 eq_refl eq_refl) as Hquiet.
  destruct (Hquiet Hc (Nat.le_refl _)) as (st' & Hloop & Htr' & Hev & Hcb).
  exists st'. split; [exact Hloop|]. split; [exact Htr'|].
  simpl in Hev, Hcb. split; [|exact Hcb].
  rewrite Hev. now rewrite <- !app_assoc.
Qed.

Lemma set_language_installed (env : environment) (lang_code : string)
  (st : state) (tr : translator) :
  install_translator env lang_code = Ok tr ->
  font_override_returns env tr = false ->
  set_language env lang_code st
  = reload_localisations
      (set_translator tr
         (set_prop_flags
            (set_lang_flags (expand_lang env lang_code)
               (PROP_FLAGS_DEFAULT st)) st)).
Proof. intros Hi Hf. unfold set_language. now rewrite Hi, Hf. Qed.

(** C8, as the code has it: a call of [set_language] that installs a
    translator (a catalogue found, the code [dummy] without one, or no
    catalogue with [en] among the codes) and gets past the font override,
    with every remembered token resolving under the new translator and no
    callback raising, reloads: every label from its token, then every menu
    entry from its token, then every callback once, in the order of
    registration, the callbacks that were registered before the call first
    and those that the calls register after them. *)
Theorem set_language_reloads (env : environment) (lang_code : string)
  (st : state) (tr : translator) :
  let T := TRANSLATIONS st in
  install_translator env lang_code = Ok tr ->
  font_override_returns env tr = false ->
  Forall (fun entry : nat * Token => resolves tr T entry.2)
    (_applied_tokens st) ->
  Forall (fun entry : nat * list (nat * Token) =>
            Forall (fun item : nat * Token => resolves tr T item.2) entry.2)
    (_applied_menu_tokens st) ->
  Forall (fun func => quiet_callback tr T func = true)
    (_langchange_callback st) ->
  exists st',
    set_language env lang_code st = (st', Ok tt)
    /\ _TRANSLATOR st' = tr
    /\ events st'
       = (events st
          ++ widget_events tr T (_applied_tokens st)
          ++ menu_events tr T (_applied_menu_tokens st)
          ++ flat_map (callback_trace tr T) (_langchange_callback st'))%list
    /\ _langchange_callback st'
       = (_langchange_callback st
          ++ flat_map callback_registers (_langchange_callback st'))%list.
Proof.
  intros T Hi Hfont Hw Hm Hc.
  rewrite (set_language_installed env lang_code st tr Hi Hfont).
  apply (reload_localisations_ok
           (set_translator tr
              (set_prop_flags
                 (set_lang_flags (expand_lang env lang_code)
                    (PROP_FLAGS_DEFAULT st)) st))); assumption.
Qed.

Lemma set_language_reloads_witness :
  install_translator (sample_env true) "dummy" = Ok DummyTranslations
  /\ font_override_returns (sample_env true) DummyTranslations = false
  /\ exists st',
       set_language (sample_env true) "dummy" busy_state = (st', Ok tt)
       /\ map cb_id (_langchange_callback st') = 7%nat :: 8%nat :: nil
       /\ events st'
          = SetText 0 "#####"
            :: Call 7 :: SetText 9 "####" :: Call 8
            :: Call 8 :: nil.
Proof.
  assert (Hi : install_translator (sample_env true) "dummy"
               = Ok DummyTranslations) by reflexivity.
  assert (Hfont : font_override_returns (sample_env true) DummyTranslations
                  = false) by reflexivity.
  split; [exact Hi|]. split; [exact Hfont|].
  destruct (set_language_reloads (sample_env true) "dummy" busy_state
              DummyTranslations Hi Hfont)
    as (st' & Hset & _ & Hev & Hcb).
  - repeat constructor. eexists. reflexivity.
  - constructor.
  - repeat constructor.
  - exists st'. split; [exact Hset|].
    assert (Hst : st' = (set_language (sample_env true) "dummy"
                           busy_state).1) by now rewrite Hset.
    split; [rewrite Hst; reflexivity|]. rewrite Hst. reflexivity.
Defined.

(** C8 as stated fails on three calls.  With a catalogue under which a
    remembered token does not resolve, the first loop raises: the label is
    not refreshed and no callback is called.  With a catalogue that asks for
    the sans-serif fonts and tkinter missing, the call returns before the
    reload: the translator is the new one and the callback is not called.
    With no catalogue for a code other than [dummy] and [en] not among the
    codes, the call raises before a translator is installed. *)
Lemma set_language_without_reload :
  _applied_tokens sample_state <> nil
  /\ _langchange_callback sample_state <> nil
  /\ (set_language (sample_env true) "fr" sample_state).2
     = Raise (KeyError "name")
  /\ events (set_language (sample_env true) "fr" sample_state).1 = nil
  /\ _langchange_callback headless_state <> nil
  /\ gettext (_TRANSLATOR (set_language (sample_env false) "ja"
                             headless_state).1) "__LANG_USE_SANS_SERIF__"
     = "YES"
  /\ (set_language (sample_env false) "ja" headless_state).2 = Ok tt
  /\ events (set_language (sample_env false) "ja" headless_state).1 = nil
  /\ (set_language (sample_env true) "de" sample_state).2
     = Raise (AttributeError "warning")
  /\ events (set_language (sample_env true) "de" sample_state).1 = nil.
Proof. repeat split; try discriminate. Qed.

(** ** Parsing tokens *)

Lemma parse_is_plain (package text : string) :
  exists ns k, parse package text = TransToken ns k ∅.
Proof.
  unfold parse.
  repeat match goal with
         | |- context [match ?x with _ => _ end] => destruct x
         end; eauto.
Qed.

(** X1: a parsed token is a plain token without parameters, and it resolves
    under every translator and every table: [str] of it never raises. *)
Theorem parse_always_resolves (tr : translator)
  (T : gmap string (gmap string string)) (package text : string) :
  parameters (parse package text) = ∅
  /\ resolves tr T (parse package text).
Proof.
  destruct (parse_is_plain package text) as (ns & k & ->). split.
  - reflexivity.
  - destruct (TransToken_str_without_parameters tr T ns k) as [s Hs].
    exists s. exact Hs.
Qed.

Lemma split_brackets_cons (c : ascii) (r : string) :
  c <> "]"%char ->
  split_brackets (String c r)
  = match split_brackets r with
    | Some (before, after) => Some (String c before, after)
    | None => None
    end.
Proof.
  intros Hc. destruct c as [b0 b1 b2 b3 b4 b5 b6 b7].
  destruct b0, b1, b2, b3, b4, b5, b6, b7; try reflexivity.
  now contradiction Hc.
Qed.

Lemma count_char_cons_0 (c x : ascii) (r : string) :
  count_char c (String x r) = O -> x <> c /\ count_char c r = O.
Proof.
  simpl. destruct (Ascii.eqb x c) eqn:E; [discriminate|].
  intros H. split; [now apply Ascii.eqb_neq | exact H].
Qed.

Lemma split_brackets_first (p rest : string) :
  count_char "]" p = O ->
  split_brackets (p +:+ "]]" +:+ rest) = Some (p, rest).
Proof.
  induction p as [|c p IH]; intros Hp; [reflexivity|].
  apply count_char_cons_0 in Hp as [Hc Hp].
  change (String c p +:+ "]]" +:+ rest)
    with (String c (p +:+ "]]" +:+ rest)).
  rewrite split_brackets_cons by exact Hc. now rewrite IH.
Qed.

(** X2: a text of the form [[package]] followed by a default, the package
    holding no closing bracket and being no special namespace, parses to
    the token of that package (of the untranslated namespace when the package
    is empty) whose key is the default without its leading whitespace,
    whatever the package of the caller. *)
Theorem parse_bracketed (caller p rest : string) :
  count_char "]" p = O ->
  special_namespace p = false ->
  parse caller ("[[" +:+ p +:+ "]]" +:+ rest)
  = TransToken (if (p =? "")%string then NS_UNTRANSLATED else p)
               (lstrip rest) ∅.
Proof.
  intros Hp Hs.
  change ("[[" +:+ p +:+ "]]" +:+ rest)
    with (String "[" (String "[" (p +:+ "]]" +:+ rest))).
  unfold parse. now rewrite split_brackets_first, Hs.
Qed.

Lemma parse_bracketed_witness :
  count_char "]" "" = O /\ special_namespace "" = false
  /\ parse "pkg" "[[]]   Raw text" = TransToken NS_UNTRANSLATED "Raw text" ∅
  /\ count_char "]" "OTHER_PACK" = O
  /\ special_namespace "OTHER_PACK" = false
  /\ parse "pkg" "[[OTHER_PACK]] Cube"
     = TransToken "OTHER_PACK" "Cube" ∅.
Proof.
  split; [reflexivity|]. split; [reflexivity|]. split.
  - apply (parse_bracketed "pkg" "" "   Raw text"); reflexivity.
  - split; [reflexivity|]. split; [reflexivity|].
    apply (parse_bracketed "pkg" "OTHER_PACK" " Cube"); reflexivity.
Defined.

(** X3: when the bracketed package starts with [<] or ends with [>], the
    whole text is kept as the key, and the namespace of the token is the
    bracketed package, not the package of the caller. *)
Theorem parse_special_namespace (caller p rest : string) :
  count_char "]" p = O ->
  special_namespace p = true ->
  parse caller ("[[" +:+ p +:+ "]]" +:+ rest)
  = TransToken p ("[[" +:+ p +:+ "]]" +:+ rest) ∅.
Proof.
  intros Hp Hs.
  change ("[[" +:+ p +:+ "]]" +:+ rest)
    with (String "[" (String "[" (p +:+ "]]" +:+ rest))).
  unfold parse. now rewrite split_brackets_first, Hs.
Qed.

Lemma parse_special_namespace_witness :
  count_char "]" NS_UI = O /\ special_namespace NS_UI = true
  /\ parse "pkg" "[[<BEE2>]] Save" = TransToken NS_UI "[[<BEE2>]] Save" ∅.
Proof.
  split; [reflexivity|]. split; [reflexivity|].
  apply (parse_special_namespace "pkg" NS_UI " Save"); reflexivity.
Defined.

Lemma parse_unbracketed (package text : string) :
  String.prefix "[[" text = false ->
  parse package text
  = if String.prefix PETI_KEY_PREFIX text then TransToken NS_GAME text ∅
    else TransToken package text ∅.
Proof.
  intros H. unfold parse.
  destruct text as [|c1 [|c2 rest]]; try reflexivity.
  - destruct c1 as [b0 b1 b2 b3 b4 b5 b6 b7].
    destruct b0, b1, b2, b3, b4, b5, b6, b7; reflexivity.
  - destruct c1 as [b0 b1 b2 b3 b4 b5 b6 b7].
    destruct b0, b1, b2, b3, b4, b5, b6, b7; try reflexivity.
    destruct c2 as [d0 d1 d2 d3 d4 d5 d6 d7].
    destruct d0, d1, d2, d3, d4, d5, d6, d7; try reflexivity.
    simpl in H. destruct rest; discriminate.
Qed.

Lemma TransToken_str_passthrough (ns k : string) :
  TransToken_str NullTranslations ∅ ns k ∅ = Ok k.
Proof.
  unfold TransToken_str.
  destruct ((ns =? NS_UNTRANSLATED)%string || (k =? "")%string);
    [reflexivity|].
  simpl. destruct (ns =? NS_UI)%string; [reflexivity|].
  unfold lookup_translation. now rewrite lookup_empty.
Qed.

(** X4: with the passthrough translator and no table loaded, a text that
    does not start with two opening brackets parses to a token that
    resolves to the text itself, whatever the package. *)
Theorem parse_then_str_passthrough (package text : string) :
  String.prefix "[[" text = false ->
  str NullTranslations ∅ (parse package text) = Ok text.
Proof.
  intros H. rewrite (parse_unbracketed package text H).
  destruct (String.prefix PETI_KEY_PREFIX text);
    apply TransToken_str_passthrough.
Qed.

Lemma parse_then_str_passthrough_witness :
  String.prefix "[[" "PORTAL2_PuzzleEditor_Item_Cube" = false
  /\ str NullTranslations ∅ (parse "pkg" "PORTAL2_PuzzleEditor_Item_Cube")
     = Ok "PORTAL2_PuzzleEditor_Item_Cube".
Proof.
  split; [reflexivity|].
  apply (parse_then_str_passthrough "pkg" "PORTAL2_PuzzleEditor_Item_Cube").
  reflexivity.
Defined.

(** ** Adding parameters *)

(** X5: [format] keeps the class, the namespace and the key of the token and
    merges the parameters, a new value replacing the old one under the same
    name; two calls in a row amount to one call with the merged arguments,
    and a call without arguments gives the token back. *)
Theorem format_merges (t : Token) (kw kw' : gmap string pyobj) (name : string) :
  namespace (format t kw) = namespace t
  /\ token (format t kw) = token t
  /\ parameters (format t kw) !! name
     = match kw !! name with
       | Some v => Some v
       | None => parameters t !! name
       end
  /\ format (format t kw) kw' = format t (kw' ∪ kw)
  /\ format t ∅ = t.
Proof.
  destruct t as [ns k p|ns k p kp|ns k p cs srt]; simpl;
    (repeat split;
     [ rewrite lookup_union; destruct (kw !! name), (p !! name); reflexivity
     | unfold format; simpl; now rewrite (assoc_L (∪))
     | unfold format; simpl; now rewrite (left_id_L ∅ (∪)) ]).
Qed.

(** X6: once [format] has supplied an [n], a plural token reads that value,
    whatever [n] it had or lacked before: the outcome is the error of [int]
    on the new value, or the selection made with the integer read. *)
Theorem format_supplies_n (tr : translator)
  (T : gmap string (gmap string string)) (ns k : string)
  (p : gmap string pyobj) (kp : string) (v : pyobj) :
  str tr T (format (PluralTransToken ns k p kp) {[ "n" := v ]})
  = int v ≫= fun n => plural_select tr n ns k ({[ "n" := v ]} ∪ p) kp.
Proof.
  unfold format. simpl. unfold PluralTransToken_str, plural_n.
  rewrite lookup_union, lookup_singleton_eq.
  destruct (p !! "n"); reflexivity.
Qed.

(** ** The dummy translator *)

Lemma dummy_char_not_brace (c : ascii) :
  negb ((code (dummy_char c) =? 123) || (code (dummy_char c) =? 125)) = true.
Proof.
  unfold dummy_char.
  destruct (isalnum_char c || (code c =? 123) || (code c =? 125)) eqn:E.
  - reflexivity.
  - apply orb_false_iff in E as [E E3]. apply orb_false_iff in E as [_ E2].
    now rewrite E2, E3.
Qed.

Lemma dummy_char_idempotent (c : ascii) :
  dummy_char (dummy_char c) = dummy_char c.
Proof.
  destruct (isalnum_char c || (code c =? 123) || (code c =? 125)) eqn:E.
  - assert (H : dummy_char c = "#"%char)
      by (unfold dummy_char; now rewrite E).
    rewrite H. reflexivity.
  - assert (H : dummy_char c = c) by (unfold dummy_char; now rewrite E).
    now rewrite !H.
Qed.

Lemma format_go_literal (p : gmap string pyobj) (c : ascii) (r : string) :
  negb ((code c =? 123) || (code c =? 125)) = true ->
  format_go p None (String c r)
  = format_go p None r ≫= fun out => Ok (String c out).
Proof.
  intros Hc. destruct c as [b0 b1 b2 b3 b4 b5 b6 b7].
  destruct b0, b1, b2, b3, b4, b5, b6, b7; try reflexivity;
    vm_compute in Hc; discriminate.
Qed.

Lemma format_map_brace_free (s : string) (p : gmap string pyobj) :
  brace_free s = true -> format_map s p = Ok s.
Proof.
  unfold format_map, brace_free.
  induction s as [|c s IH]; intros H; [reflexivity|].
  simpl in H. apply andb_true_iff in H as [Hc Hs].
  rewrite format_go_literal by exact Hc. now rewrite (IH Hs).
Qed.

(** X7: the text that [DummyTranslations.gettext] makes has the length of
    the message and holds no brace, so formatting it with any parameters
    gives it back and never raises; translating it again changes nothing. *)
Theorem dummy_gettext_shape (message : string) (p : gmap string pyobj) :
  String.length (DummyTranslations_gettext message) = String.length message
  /\ brace_free (DummyTranslations_gettext message) = true
  /\ format_map (DummyTranslations_gettext message) p
     = Ok (DummyTranslations_gettext message)
  /\ DummyTranslations_gettext (DummyTranslations_gettext message)
     = DummyTranslations_gettext message.
Proof.
  assert (Hb : brace_free (DummyTranslations_gettext message) = true).
  { unfold brace_free, DummyTranslations_gettext.
    induction message as [|c m IH]; [reflexivity|].
    simpl. now rewrite dummy_char_not_brace, IH. }
  repeat split.
  - clear Hb. unfold DummyTranslations_gettext.
    induction message as [|c m IH]; simpl; congruence.
  - exact Hb.
  - now apply format_map_brace_free.
  - clear Hb. unfold DummyTranslations_gettext.
    induction message as [|c m IH]; [reflexivity|].
    simpl. now rewrite dummy_char_idempotent, IH.
Qed.

(** X8: a key without a brace resolves, for a plain token, whatever its
    parameters: outside the dummy mode, in the untranslated namespace to
    itself, and in the UI namespace with the passthrough translator to
    itself. *)
Theorem brace_free_key_resolves (T : gmap string (gmap string string))
  (tr : translator) (k : string) (p : gmap string pyobj) :
  brace_free k = true ->
  str tr T (TransToken NS_UNTRANSLATED k p) = Ok k
  /\ str NullTranslations T (TransToken NS_UI k p) = Ok k.
Proof.
  intros Hk.
  assert (Hfmt : apply_parameters k p = Ok k).
  { unfold apply_parameters. destruct (bool_decide (p = ∅)); [reflexivity|].
    now apply format_map_brace_free. }
  split.
  - simpl. unfold TransToken_str. simpl. exact Hfmt.
  - simpl. unfold TransToken_str.
    destruct (k =? "")%string; simpl; exact Hfmt.
Qed.

Lemma brace_free_key_resolves_witness :
  brace_free "Save as..." = true
  /\ str DummyTranslations ∅
       (TransToken NS_UNTRANSLATED "Save as..." {[ "n" := PInt 3 ]})
     = Ok "Save as..."
  /\ str NullTranslations ∅
       (TransToken NS_UI "Save as..." {[ "n" := PInt 3 ]})
     = Ok "Save as...".
Proof.
  split; [reflexivity|].
  apply (brace_free_key_resolves ∅ DummyTranslations "Save as..."
           {[ "n" := PInt 3 ]}).
  reflexivity.
Defined.

(** ** What [set_language] leaves and installs *)

Lemma apply_flags (t : Token) (widget : nat) (st : state) :
  PROP_FLAGS_DEFAULT (apply t widget st).1 = PROP_FLAGS_DEFAULT st.
Proof. unfold apply. now destruct (str _ _ t). Qed.

Lemma apply_menu_flags (t : Token) (menu ind : nat) (st : state) :
  PROP_FLAGS_DEFAULT (apply_menu t menu ind st).1 = PROP_FLAGS_DEFAULT st.
Proof. unfold apply_menu. now destruct (str _ _ t). Qed.

Lemma run_seq_flags (body : list action) :
  Forall (fun a => forall st,
            PROP_FLAGS_DEFAULT (run_action a st).1 = PROP_FLAGS_DEFAULT st)
    body ->
  forall st,
    PROP_FLAGS_DEFAULT (run_seq run_action body st).1 = PROP_FLAGS_DEFAULT st.
Proof.
  induction 1 as [|a body Ha _ IH]; intros st; simpl; [reflexivity|].
  pose proof (Ha st) as Hst.
  destruct (run_action a st) as [st1 [[]|e]]; simpl in *; [|exact Hst].
  now rewrite IH.
Qed.

Lemma run_action_flags (a : action) :
  forall st, PROP_FLAGS_DEFAULT (run_action a st).1 = PROP_FLAGS_DEFAULT st.
Proof.
  induction a as [t w|t m i|m|func body call IH|e] using action_body_ind;
    intros st; simpl; try reflexivity.
  - apply apply_flags.
  - apply apply_menu_flags.
  - destruct call; [|reflexivity]. now rewrite (run_seq_flags body IH).
Qed.

Lemma run_callback_flags (func : callback) (st : state) :
  PROP_FLAGS_DEFAULT (run_callback func st).1 = PROP_FLAGS_DEFAULT st.
Proof.
  unfold run_callback. rewrite run_seq_flags; [reflexivity|].
  apply Forall_forall. intros a _. apply run_action_flags.
Qed.

Lemma callback_loop_flags (fuel : nat) :
  forall i st,
    PROP_FLAGS_DEFAULT (callback_loop fuel i st).1 = PROP_FLAGS_DEFAULT st.
Proof.
  induction fuel as [|fuel IH]; intros i st; simpl; [reflexivity|].
  destruct (_langchange_callback st !! i) as [func|]; [|reflexivity].
  pose proof (run_callback_flags func st) as Hst.
  destruct (run_callback func st) as [st1 [[]|e]]; simpl in *; [|exact Hst].
  now rewrite IH.
Qed.

Lemma reload_localisations_flags (st : state) :
  PROP_FLAGS_DEFAULT (reload_localisations st).1 = PROP_FLAGS_DEFAULT st.
Proof.
  unfold reload_localisations.
  destruct (io_bind _ _) as [evs [[]|e]]; [|reflexivity].
  unfold reload_callbacks. now rewrite callback_loop_flags.
Qed.

Lemma set_language_flags_field (env : environment) (lang_code : string)
  (st : state) :
  PROP_FLAGS_DEFAULT (set_language env lang_code st).1
  = set_lang_flags (expand_lang env lang_code) (PROP_FLAGS_DEFAULT st).
Proof.
  unfold set_language.
  destruct (install_translator env lang_code) as [tr|e]; [|reflexivity].
  destruct (font_override_returns env tr); [reflexivity|].
  now rewrite reload_localisations_flags.
Qed.

Lemma find_catalog_passes (open : string -> option catalog)
  (missing rest : list string) :
  Forall (fun l => (exists name, mo_file_name l = Ok name)
                   /\ open l = None) missing ->
  find_catalog open (missing ++ rest) = find_catalog open rest.
Proof.
  induction 1 as [|l missing [[name Hn] Hl] _ IH]; [reflexivity|].
  simpl. now rewrite Hn, Hl.
Qed.

Lemma find_catalog_first (open : string -> option catalog)
  (langs : list string) (found : option catalog) :
  find_catalog open langs = Ok found -> found = first_catalog open langs.
Proof.
  induction langs as [|l langs IH]; simpl.
  - now intros [= <-].
  - destruct (mo_file_name l); [|discriminate]. simpl.
    destruct (open l); [now intros [= <-] | exact IH].
Qed.

(** The translator that gets installed is the one [select_translator]
    gives. *)
Lemma install_translator_selects (env : environment) (lang_code : string)
  (tr : translator) :
  install_translator env lang_code = Ok tr ->
  tr = select_translator env lang_code.
Proof.
  unfold install_translator, select_translator.
  destruct (find_catalog _ _) as [found|e] eqn:Hfind; [|discriminate].
  apply find_catalog_first in Hfind as <-. simpl.
  destruct found; [now intros [= <-]|].
  destruct (lang_code =? "dummy")%string; [now intros [= <-]|].
  destruct (has_english _); [now intros [= <-] | discriminate].
Qed.

(** X9: when the name of the file of a code does not format (a brace in
    the code), with an error of the modelled fragment, the codes before it
    having names that format and no file, [set_language] raises the error of
    the formatting: the translator of
    before stays installed, no label, menu entry or callback is touched, and
    the remembered tokens and callbacks are as they were. *)
Theorem set_language_file_name_error (env : environment)
  (lang_code : string) (st : state) (missing : list string)
  (lang : string) (rest : list string) (e : exn) :
  expand_lang env lang_code = (missing ++ lang :: rest)%list ->
  Forall (fun l => (exists name, mo_file_name l = Ok name)
                   /\ open_mo env l = None) missing ->
  mo_file_name lang = Raise e ->
  e <> OutsideFragment ->
  let st' := (set_language env lang_code st).1 in
  (set_language env lang_code st).2 = Raise e
  /\ _TRANSLATOR st' = _TRANSLATOR st
  /\ events st' = events st
  /\ _applied_tokens st' = _applied_tokens st
  /\ _applied_menu_tokens st' = _applied_menu_tokens st
  /\ _langchange_callback st' = _langchange_callback st.
Proof.
  intros Hexp Hmiss Hname _.
  assert (Hi : install_translator env lang_code = Raise e).
  { unfold install_translator.
    rewrite Hexp, find_catalog_passes by exact Hmiss. simpl.
    now rewrite Hname. }
  unfold set_language. rewrite Hi. simpl. repeat split.
Qed.

Lemma set_language_file_name_error_witness :
  let env := {|
    expand_lang := fun _ => "fr_CA" :: "{x}" :: "fr" :: nil;
    open_mo := open_mo (sample_env true);
    tkinter_importable := true |} in
  expand_lang env "{x}" = (("fr_CA" :: nil) ++ "{x}" :: "fr" :: nil)%list
  /\ Forall (fun l => (exists name, mo_file_name l = Ok name)
                      /\ open_mo env l = None) ("fr_CA" :: nil)
  /\ mo_file_name "{x}" = Raise (KeyError "x")
  /\ KeyError "x" <> OutsideFragment
  /\ (set_language env "{x}" sample_state).2 = Raise (KeyError "x")
  /\ events (set_language env "{x}" sample_state).1 = nil.
Proof.
  intros env.
  assert (H1 : expand_lang env "{x}"
               = (("fr_CA" :: nil) ++ "{x}" :: "fr" :: nil)%list)
    by reflexivity.
  assert (H2 : Forall (fun l => (exists name, mo_file_name l = Ok name)
                                /\ open_mo env l = None) ("fr_CA" :: nil)).
  { repeat constructor. eexists. reflexivity. }
  assert (H3 : mo_file_name "{x}" = Raise (KeyError "x")) by reflexivity.
  assert (H4 : KeyError "x" <> OutsideFragment) by discriminate.
  split; [exact H1|]. split; [exact H2|]. split; [exact H3|].
  split; [exact H4|].
  destruct (set_language_file_name_error env "{x}" sample_state
              ("fr_CA" :: nil) "{x}" ("fr" :: nil) (KeyError "x")
              H1 H2 H3 H4)
    as (Hout & _ & Hev & _).
  split; [exact Hout | exact Hev].
Defined.

Lemma set_lang_flags_snoc (langs : list string) (lang : string)
  (flags : gmap string bool) :
  set_lang_flags (langs ++ lang :: nil) flags
  = <["lang_" +:+ lang := true]> (set_lang_flags langs flags).
Proof. unfold set_lang_flags. now rewrite foldl_app. Qed.

Lemma set_lang_flags_member (langs : list string)
  (flags : gmap string bool) (lang : string) :
  lang ∈ langs ->
  set_lang_flags langs flags !! ("lang_" +:+ lang) = Some true.
Proof.
  induction langs as [|l langs IH] using rev_ind; intros Hin.
  - inversion Hin.
  - rewrite set_lang_flags_snoc.
    destruct (decide ("lang_" +:+ l = "lang_" +:+ lang)) as [->|Hne].
    + apply lookup_insert_eq.
    + rewrite lookup_insert_ne by exact Hne. apply IH.
      apply elem_of_app in Hin as [Hin|Hin]; [exact Hin|].
      apply list_elem_of_singleton in Hin. subst. contradiction.
Qed.

Lemma set_lang_flags_other (langs : list string)
  (flags : gmap string bool) (key : string) :
  (forall lang, lang ∈ langs -> key <> "lang_" +:+ lang) ->
  set_lang_flags langs flags !! key = flags !! key.
Proof.
  induction langs as [|l langs IH] using rev_ind; intros Hkey.
  - reflexivity.
  - rewrite set_lang_flags_snoc, lookup_insert_ne.
    + apply IH. intros lang Hin. apply Hkey, elem_of_app. now left.
    + intros Heq. apply (Hkey l); [|now symmetry].
      apply elem_of_app. right. now apply list_elem_of_singleton.
Qed.

(** X10: after [set_language], in every outcome, the flag [lang_] followed by
    the code is true for every code of the expanded list, and every other
    flag is as it was. *)
Theorem set_language_flags (env : environment) (lang_code : string)
  (st : state) (key : string) :
  let st' := (set_language env lang_code st).1 in
  (forall lang, lang ∈ expand_lang env lang_code ->
     PROP_FLAGS_DEFAULT st' !! ("lang_" +:+ lang) = Some true)
  /\ ((forall lang, lang ∈ expand_lang env lang_code ->
         key <> "lang_" +:+ lang) ->
      PROP_FLAGS_DEFAULT st' !! key = PROP_FLAGS_DEFAULT st !! key).
Proof.
  simpl. rewrite set_language_flags_field. split.
  - intros lang Hin. now apply set_lang_flags_member.
  - intros Hkey. now apply set_lang_flags_other.
Qed.




(** X12: when the names of the files format and no code of the expanded
    list has a file: for the code [dummy], or with [en] among the codes, the
    dummy translator, for [dummy], or the passthrough one is installed, the
    font override does not return, and the call ends as the reload ends;
    for another code without [en] among the codes the call raises
    [AttributeError], with the translator of before still installed and no
    label, menu entry or callback touched. *)
Theorem set_language_without_catalogue (env : environment)
  (lang_code : string) (st : state) :
  find_catalog (open_mo env) (expand_lang env lang_code) = Ok None ->
  ((lang_code =? "dummy")%string || has_english (expand_lang env lang_code)
   = true ->
     let tr := if (lang_code =? "dummy")%string then DummyTranslations
               else NullTranslations in
     install_translator env lang_code = Ok tr
     /\ font_override_returns env tr = false
     /\ set_language env lang_code st
        = reload_localisations
            (set_translator tr
               (set_prop_flags
                  (set_lang_flags (expand_lang env lang_code)
                     (PROP_FLAGS_DEFAULT st)) st)))
  /\ ((lang_code =? "dummy")%string || has_english (expand_lang env lang_code)
      = false ->
      let st' := (set_language env lang_code st).1 in
      (set_language env lang_code st).2 = Raise (AttributeError "warning")
      /\ _TRANSLATOR st' = _TRANSLATOR st
      /\ events st' = events st
      /\ _applied_tokens st' = _applied_tokens st
      /\ _applied_menu_tokens st' = _applied_menu_tokens st
      /\ _langchange_callback st' = _langchange_callback st).
Proof.
  intros Hnone. split.
  - intros Hor tr.
    assert (Hi : install_translator env lang_code = Ok tr).
    { unfold install_translator. rewrite Hnone. simpl. subst tr.
      destruct (lang_code =? "dummy")%string; [reflexivity|].
      simpl in Hor. now rewrite Hor. }
    assert (Hfont : font_override_returns env tr = false).
    { subst tr. destruct (lang_code =? "dummy")%string; reflexivity. }
    split; [exact Hi|]. split; [exact Hfont|].
    now apply set_language_installed.
  - intros Hor. apply orb_false_iff in Hor as [Hd Hen].
    assert (Hi : install_translator env lang_code
                 = Raise (AttributeError "warning")).
    { unfold install_translator. rewrite Hnone. simpl. now rewrite Hd, Hen. }
    unfold set_language. rewrite Hi. simpl. repeat split.
Qed.

Lemma set_language_without_catalogue_witness :
  let env := {|
    expand_lang := fun lang_code => lang_code :: "en" :: nil;
    open_mo := fun _ => None;
    tkinter_importable := false |} in
  find_catalog (open_mo env) (expand_lang env "de") = Ok None
  /\ (set_language env "de" sample_state).2 = Ok tt
  /\ events (set_language env "de" sample_state).1
     = SetText 0 "Hello" :: EntryConfigure 1 0 "File" :: Call 7 :: nil
  /\ find_catalog (open_mo (sample_env false))
       (expand_lang (sample_env false) "de") = Ok None
  /\ (set_language (sample_env false) "de" sample_state).2
     = Raise (AttributeError "warning").
Proof.
  intros env.
  assert (H1 : find_catalog (open_mo env) (expand_lang env "de") = Ok None)
    by reflexivity.
  assert (H2 : find_catalog (open_mo (sample_env false))
                 (expand_lang (sample_env false) "de") = Ok None)
    by reflexivity.
  destruct (set_language_without_catalogue env "de" sample_state H1)
    as [Hok _].
  destruct (Hok eq_refl) as (_ & _ & Hset).
  destruct (set_language_without_catalogue (sample_env false) "de"
              sample_state H2) as [_ Hbad].
  destruct (Hbad eq_refl) as (Hout & _).
  split; [exact H1|]. split; [rewrite Hset; reflexivity|].
  split; [rewrite Hset; reflexivity|]. split; [exact H2 | exact Hout].
Defined.

(** ** The registries *)

Lemma assoc_get_set_eq {V} (key : nat) (v : V) (l : list (nat * V)) :
  assoc_get key (assoc_set key v l) = Some v.
Proof.
  induction l as [|[k x] l IH]; simpl.
  - now rewrite Nat.eqb_refl.
  - destruct (Nat.eqb k key) eqn:E; simpl.
    + now rewrite Nat.eqb_refl.
    + now rewrite E.
Qed.

Lemma assoc_get_set_ne {V} (key key' : nat) (v : V) (l : list (nat * V)) :
  key' <> key -> assoc_get key' (assoc_set key v l) = assoc_get key' l.
Proof.
  intros Hne. induction l as [|[k x] l IH]; simpl.
  - apply Nat.eqb_neq in Hne. rewrite Nat.eqb_sym in Hne. now rewrite Hne.
  - destruct (Nat.eqb k key) eqn:E; simpl.
    + apply Nat.eqb_eq in E. subst k.
      assert (Nat.eqb key key' = false) as ->
        by (apply Nat.eqb_neq; congruence).
      reflexivity.
    + now rewrite IH.
Qed.

Lemma assoc_set_keys {V} (key : nat) (v : V) (l : list (nat * V)) :
  map fst (assoc_set key v l)
  = match assoc_get key l with
    | Some _ => map fst l
    | None => (map fst l ++ key :: nil)%list
    end.
Proof.
  induction l as [|[k x] l IH]; simpl; [reflexivity|].
  destruct (Nat.eqb k key) eqn:E; simpl.
  - apply Nat.eqb_eq in E. now subst.
  - rewrite IH. now destruct (assoc_get key l).
Qed.

Lemma assoc_get_None_keys {V} (key : nat) (l : list (nat * V)) :
  assoc_get key l = None -> ~ In key (map fst l).
Proof.
  induction l as [|[k x] l IH]; simpl; [tauto|].
  destruct (Nat.eqb k key) eqn:E; [discriminate|].
  apply Nat.eqb_neq in E. intros H [Hk|Hin]; [congruence|]. now apply IH.
Qed.

Lemma assoc_get_In {V} (key : nat) (v : V) (l : list (nat * V)) :
  assoc_get key l = Some v -> In (key, v) l.
Proof.
  induction l as [|[k x] l IH]; simpl; [discriminate|].
  destruct (Nat.eqb k key) eqn:E.
  - apply Nat.eqb_eq in E. intros [= ->]. left. congruence.
  - intros H. right. now apply IH.
Qed.

Lemma assoc_get_pop_eq {V} (key : nat) (l : list (nat * V)) :
  assoc_get key (assoc_pop key l) = None.
Proof.
  induction l as [|[k x] l IH]; simpl; [reflexivity|].
  destruct (Nat.eqb k key) eqn:E; simpl; [exact IH|]. now rewrite E.
Qed.

Lemma assoc_get_pop_ne {V} (key key' : nat) (l : list (nat * V)) :
  key' <> key -> assoc_get key' (assoc_pop key l) = assoc_get key' l.
Proof.
  intros Hne. induction l as [|[k x] l IH]; simpl; [reflexivity|].
  destruct (Nat.eqb k key) eqn:E; simpl.
  - apply Nat.eqb_eq in E. subst k.
    assert (Nat.eqb key key' = false) as ->
      by (apply Nat.eqb_neq; congruence).
    exact IH.
  - now rewrite IH.
Qed.

(** X13: [apply] on a token that resolves sets the text of the widget to the
    resolved text and remembers the token for that widget, the tokens of the
    other widgets being as they were; on a token that raises it raises the
    same error and changes nothing: no text is set and the token that the
    widget had before stays remembered. *)
Theorem apply_binds (self : Token) (widget : nat) (st : state) :
  (forall s, str (_TRANSLATOR st) (TRANSLATIONS st) self = Ok s ->
     exists st',
       apply self widget st = (st', Ok tt)
       /\ assoc_get widget (_applied_tokens st') = Some self
       /\ (forall w, w <> widget ->
             assoc_get w (_applied_tokens st')
             = assoc_get w (_applied_tokens st))
       /\ events st' = (events st ++ SetText widget s :: nil)%list)
  /\ (forall e, str (_TRANSLATOR st) (TRANSLATIONS st) self = Raise e ->
        apply self widget st = (st, Raise e)).
Proof.
  split.
  - intros s Hs. unfold apply. rewrite Hs. eexists. split; [reflexivity|].
    simpl. split; [apply assoc_get_set_eq|]. split; [|reflexivity].
    intros w Hw. now apply assoc_get_set_ne.
  - intros e He. unfold apply. now rewrite He.
Qed.

Lemma apply_binds_witness :
  str (_TRANSLATOR sample_state) (TRANSLATIONS sample_state) (ui "Quit" ∅)
  = Ok "Quit"
  /\ (exists st',
        apply (ui "Quit" ∅) 0 sample_state = (st', Ok tt)
        /\ assoc_get 0%nat (_applied_tokens st') = Some (ui "Quit" ∅)
        /\ events st' = SetText 0 "Quit" :: nil)
  /\ str (_TRANSLATOR sample_state) (TRANSLATIONS sample_state)
       (ui_plural "item" "items" ∅) = Raise (ValueError PluralRequiresN)
  /\ apply (ui_plural "item" "items" ∅) 0 sample_state
     = (sample_state, Raise (ValueError PluralRequiresN)).
Proof.
  assert (H1 : str (_TRANSLATOR sample_state) (TRANSLATIONS sample_state)
                 (ui "Quit" ∅) = Ok "Quit") by reflexivity.
  assert (H2 : str (_TRANSLATOR sample_state) (TRANSLATIONS sample_state)
                 (ui_plural "item" "items" ∅)
               = Raise (ValueError PluralRequiresN)) by reflexivity.
  destruct (apply_binds (ui "Quit" ∅) 0 sample_state) as [Hok _].
  destruct (apply_binds (ui_plural "item" "items" ∅) 0 sample_state)
    as [_ Hbad].
  split; [exact H1|]. split.
  - destruct (Hok "Quit" H1) as (st' & Happ & Hget & _ & Hev).
    exists st'. split; [exact Happ|]. split; [exact Hget|].
    rewrite Hev. reflexivity.
  - split; [exact H2|]. exact (Hbad _ H2).
Defined.

(** X14: [apply] keeps one entry per widget: when the widgets of the applied
    tokens are distinct before the call they are distinct after it; a widget
    applied again keeps its place, a new widget goes to the end. *)
Theorem apply_keeps_widgets_distinct (self : Token) (widget : nat)
  (st : state) :
  NoDup (map fst (_applied_tokens st)) ->
  NoDup (map fst (_applied_tokens (apply self widget st).1))
  /\ (forall st', apply self widget st = (st', Ok tt) ->
        map fst (_applied_tokens st')
        = match assoc_get widget (_applied_tokens st) with
          | Some _ => map fst (_applied_tokens st)
          | None => (map fst (_applied_tokens st) ++ widget :: nil)%list
          end).
Proof.
  intros Hnd.
  assert (Hkeys : NoDup (map fst (assoc_set widget self
                                    (_applied_tokens st)))).
  { rewrite assoc_set_keys.
    destruct (assoc_get widget (_applied_tokens st)) eqn:Hget; [exact Hnd|].
    apply NoDup_app. split; [exact Hnd|]. split.
    - intros x Hx Hx'. apply list_elem_of_singleton in Hx'. subst x.
      apply (assoc_get_None_keys _ _ Hget). now apply list_elem_of_In.
    - apply NoDup_singleton. }
  unfold apply.
  destruct (str (_TRANSLATOR st) (TRANSLATIONS st) self) as [s|e]; simpl.
  - split; [exact Hkeys|]. intros st' [= <-]. simpl. apply assoc_set_keys.
  - split; [exact Hnd|]. intros st' [=].
Qed.

Lemma apply_keeps_widgets_distinct_witness :
  NoDup (map fst (_applied_tokens sample_state))
  /\ NoDup (map fst (_applied_tokens
                       (apply (ui "Quit" ∅) 5 sample_state).1))
  /\ map fst (_applied_tokens (apply (ui "Quit" ∅) 5 sample_state).1)
     = 0%nat :: 5%nat :: nil.
Proof.
  assert (H : NoDup (map fst (_applied_tokens sample_state))).
  { simpl. apply NoDup_singleton. }
  split; [exact H|].
  destruct (apply_keeps_widgets_distinct (ui "Quit" ∅) 5 sample_state H)
    as [Hnd Hkeys].
  split; [exact Hnd|]. apply Hkeys. reflexivity.
Defined.

Lemma callback_loop_extends (fuel : nat) :
  forall i st, extends st (callback_loop fuel i st).1.
Proof.
  induction fuel as [|fuel IH]; intros i st; simpl; [apply extends_refl|].
  destruct (_langchange_callback st !! i) as [func|]; [|apply extends_refl].
  pose proof (run_callback_extends func st) as Hst.
  destruct (run_callback func st) as [st1 [[]|e]]; simpl in *; [|exact Hst].
  eapply extends_trans; [exact Hst | apply IH].
Qed.

(** X15: a token applied to a widget follows the language: when a later
    [set_language] installs a translator and gets past the font override,
    with every remembered widget token resolving under the new translator,
    the text of the widget is set again, to the text of the token under the
    new translator, whatever the menus and the callbacks do afterwards. *)
Theorem applied_token_follows_language (env : environment)
  (lang_code : string) (self : Token) (widget : nat) (st st1 : state)
  (tr : translator) :
  let T := TRANSLATIONS st in
  apply self widget st = (st1, Ok tt) ->
  install_translator env lang_code = Ok tr ->
  font_override_returns env tr = false ->
  Forall (fun entry : nat * Token => resolves tr T entry.2)
    (_applied_tokens st1) ->
  exists before after,
    events (set_language env lang_code st1).1
    = (events st1 ++ before
       ++ SetText widget (text_of tr T self) :: after)%list.
Proof.
  intros T Happ Hi Hfont Hw.
  assert (HT : TRANSLATIONS st1 = T /\ In (widget, self) (_applied_tokens st1)).
  { unfold apply in Happ.
    destruct (str (_TRANSLATOR st) (TRANSLATIONS st) self); [|discriminate].
    injection Happ as <-. simpl. split; [reflexivity|].
    apply assoc_get_In, assoc_get_set_eq. }
  destruct HT as [HT Hin].
  apply in_split in Hin as (l1 & l2 & Hsplit).
  rewrite (set_language_installed env lang_code st1 tr Hi Hfont).
  unfold reload_localisations. simpl. rewrite HT.
  rewrite (reload_widgets_ok tr T _ Hw). simpl.
  assert (Hwev : widget_events tr T (_applied_tokens st1)
                 = (widget_events tr T l1
                    ++ SetText widget (text_of tr T self)
                    :: widget_events tr T l2)%list).
  { rewrite Hsplit. unfold widget_events. now rewrite map_app. }
  exists (widget_events tr T l1).
  destruct (for_each (reload_menu tr T) (_applied_menu_tokens st1))
    as [evm [[]|e]]; simpl.
  - match goal with
    | |- context [reload_callbacks ?s] =>
        pose proof (callback_loop_extends
                      (loop_fuel (_langchange_callback s)) 0 s)
          as (_ & _ & _ & [evs Hev])
    end.
    unfold reload_callbacks. rewrite Hev. simpl.
    exists (widget_events tr T l2 ++ evm ++ evs)%list.
    rewrite Hwev. now rewrite <- !app_assoc.
  - exists (widget_events tr T l2 ++ evm)%list.
    rewrite Hwev. now rewrite <- !app_assoc.
Qed.

Lemma applied_token_follows_language_witness :
  exists st1,
    apply (ui "Quit" ∅) 5 headless_state = (st1, Ok tt)
    /\ install_translator (sample_env true) "dummy" = Ok DummyTranslations
    /\ font_override_returns (sample_env true) DummyTranslations = false
    /\ exists before after,
         events (set_language (sample_env true) "dummy" st1).1
         = (events st1 ++ before ++ SetText 5 "####" :: after)%list.
Proof.
  eexists. split; [reflexivity|]. split; [reflexivity|].
  split; [reflexivity|].
  match goal with
  | |- context [set_language _ _ ?s] => set (st1 := s)
  end.
  apply (applied_token_follows_language (sample_env true) "dummy"
           (ui "Quit" ∅) 5 headless_state st1 DummyTranslations).
  - reflexivity.
  - reflexivity.
  - reflexivity.
  - repeat constructor. eexists. reflexivity.
Defined.

(** X16: [add_callback] registers the function at the end of the list before
    it calls it, so the function stays registered when its first call
    raises, in front of the functions that this call registers; without
    [call] nothing is called and nothing else changes; with [call] the call
    is the first new event, and when no statement of the function raises
    the call ends without raising, having done what the function does. *)
Theorem add_callback_registers (func : callback) (call : bool) (st : state) :
  let st' := (add_callback func call st).1 in
  (exists later,
     _langchange_callback st'
     = (_langchange_callback st ++ func :: later)%list)
  /\ (exists evs,
        events st'
        = (events st ++ if call then Call (cb_id func) :: evs else nil)%list)
  /\ (call = false ->
        add_callback func call st
        = (set_langchange_callback
             (_langchange_callback st ++ func :: nil)%list st, Ok tt))
  /\ (call = true ->
      quiet_callback (_TRANSLATOR st) (TRANSLATIONS st) func = true ->
      (add_callback func call st).2 = Ok tt
      /\ events st'
         = (events st
            ++ callback_trace (_TRANSLATOR st) (TRANSLATIONS st) func)%list
      /\ _langchange_callback st'
         = (_langchange_callback st
            ++ func :: callback_registers func)%list).
Proof.
  unfold add_callback. destruct call; simpl.
  - set (st1 := set_langchange_callback _ st).
    assert (Hext : extends (add_events (Call (cb_id func) :: nil) st1)
                     (run_callback func st1).1).
    { unfold run_callback. apply run_seq_extends.
      apply Forall_forall. intros a _. apply run_action_extends. }
    destruct Hext as (_ & _ & [later Hl] & [evs He]). simpl in Hl, He.
    split; [|split; [|split]].
    + exists later. rewrite Hl. now rewrite <- app_assoc.
    + exists evs. rewrite He. now rewrite <- app_assoc.
    + discriminate.
    + intros _ Hq.
      destruct (run_callback_quiet (_TRANSLATOR st) (TRANSLATIONS st)
                  func st1 Hq eq_refl eq_refl) as (st' & Hrun & Hev).
      pose proof (run_callback_registered func st1 st' Hrun) as Hcb.
      rewrite Hrun. simpl. split; [reflexivity|]. split; [exact Hev|].
      rewrite Hcb. simpl. now rewrite <- app_assoc.
  - split; [exists nil; reflexivity|].
    split; [exists nil; now rewrite app_nil_r|].
    split; [reflexivity | discriminate].
Qed.

Lemma add_callback_registers_witness :
  let func := {| cb_id := 3%nat;
                 cb_body := DoApply (ui_plural "item" "items" ∅) 4
                            :: DoClearMenu 1 :: nil |} in
  let quiet := {| cb_id := 4%nat;
                  cb_body := DoApply (ui "Quit" ∅) 4
                             :: DoAddCallback 5 nil false :: nil |} in
  (add_callback func true headless_state).2
  = Raise (ValueError PluralRequiresN)
  /\ (exists later,
        _langchange_callback (add_callback func true headless_state).1
        = (_langchange_callback headless_state ++ func :: later)%list)
  /\ quiet_callback NullTranslations ∅ quiet = true
  /\ events (add_callback quiet true headless_state).1
     = Call 4 :: SetText 4 "Quit" :: nil
  /\ map cb_id (_langchange_callback (add_callback quiet true
                                        headless_state).1)
     = 7%nat :: 4%nat :: 5%nat :: nil.
Proof.
  intros func quiet.
  destruct (add_callback_registers func true headless_state)
    as (Hreg & _ & _ & _).
  destruct (add_callback_registers quiet true headless_state)
    as (_ & _ & _ & Hq).
  assert (Hquiet : quiet_callback NullTranslations ∅ quiet = true)
    by reflexivity.
  destruct (Hq eq_refl Hquiet) as (_ & Hev & Hcb).
  split; [reflexivity|]. split; [exact Hreg|]. split; [exact Hquiet|].
  split; [rewrite Hev; reflexivity | rewrite Hcb; reflexivity].
Defined.

(** X17: [apply_menu] on a token that resolves sets the label of the entry
    and remembers the token under the menu and the index, the entries of the
    other menus and the other indexes of that menu being as they were; on a
    token that raises no label is set and no token is remembered, but a menu
    that had no map has an empty one afterwards. *)
Theorem apply_menu_binds (self : Token) (menu ind : nat) (st : state) :
  (forall s, str (_TRANSLATOR st) (TRANSLATIONS st) self = Ok s ->
     exists st' tok_map,
       apply_menu self menu ind st = (st', Ok tt)
       /\ assoc_get menu (_applied_menu_tokens st') = Some tok_map
       /\ assoc_get ind tok_map = Some self
       /\ (forall i, i <> ind ->
             assoc_get i tok_map
             = assoc_get i (default nil (assoc_get menu
                                           (_applied_menu_tokens st))))
       /\ (forall m, m <> menu ->
             assoc_get m (_applied_menu_tokens st')
             = assoc_get m (_applied_menu_tokens st))
       /\ events st' = (events st ++ EntryConfigure menu ind s :: nil)%list)
  /\ (forall e, str (_TRANSLATOR st) (TRANSLATIONS st) self = Raise e ->
        (apply_menu self menu ind st).2 = Raise e
        /\ events (apply_menu self menu ind st).1 = events st
        /\ assoc_get menu (_applied_menu_tokens (apply_menu self menu ind st).1)
           = Some (default nil (assoc_get menu (_applied_menu_tokens st)))
        /\ (forall m, m <> menu ->
              assoc_get m
                (_applied_menu_tokens (apply_menu self menu ind st).1)
              = assoc_get m (_applied_menu_tokens st))).
Proof.
  split.
  - intros s Hs. unfold apply_menu. rewrite Hs. eexists. eexists.
    split; [reflexivity|]. simpl.
    split; [apply assoc_get_set_eq|]. split; [apply assoc_get_set_eq|].
    split; [intros i Hi; now apply assoc_get_set_ne|]. split; [|reflexivity].
    intros m Hm. rewrite assoc_get_set_ne by exact Hm.
    destruct (assoc_get menu (_applied_menu_tokens st)); [reflexivity|].
    now apply assoc_get_set_ne.
  - intros e He. unfold apply_menu. rewrite He. simpl.
    split; [reflexivity|]. split; [reflexivity|].
    destruct (assoc_get menu (_applied_menu_tokens st)) eqn:Hget; simpl.
    + split; [exact Hget | reflexivity].
    + split; [apply assoc_get_set_eq|].
      intros m Hm. now apply assoc_get_set_ne.
Qed.

Lemma apply_menu_binds_witness :
  str (_TRANSLATOR sample_state) (TRANSLATIONS sample_state) (ui "Open" ∅)
  = Ok "Open"
  /\ (exists st' tok_map,
        apply_menu (ui "Open" ∅) 1 3 sample_state = (st', Ok tt)
        /\ assoc_get 1%nat (_applied_menu_tokens st') = Some tok_map
        /\ assoc_get 3%nat tok_map = Some (ui "Open" ∅)
        /\ assoc_get 0%nat tok_map = Some (ui "File" ∅))
  /\ str (_TRANSLATOR headless_state) (TRANSLATIONS headless_state)
       (ui "{x}" {[ "y" := PNone ]}) = Raise (KeyError "x")
  /\ assoc_get 2%nat
       (_applied_menu_tokens
          (apply_menu (ui "{x}" {[ "y" := PNone ]}) 2 0 headless_state).1)
     = Some nil.
Proof.
  assert (H1 : str (_TRANSLATOR sample_state) (TRANSLATIONS sample_state)
                 (ui "Open" ∅) = Ok "Open") by reflexivity.
  assert (H2 : str (_TRANSLATOR headless_state) (TRANSLATIONS headless_state)
                 (ui "{x}" {[ "y" := PNone ]}) = Raise (KeyError "x"))
    by reflexivity.
  split; [exact H1|]. split.
  - destruct (apply_menu_binds (ui "Open" ∅) 1 3 sample_state) as [Hok _].
    destruct (Hok "Open" H1) as (st' & tok_map & Happ & Hm & Hi & Ho & _).
    exists st', tok_map. split; [exact Happ|]. split; [exact Hm|].
    split; [exact Hi|]. rewrite Ho by discriminate. reflexivity.
  - split; [exact H2|].
    destruct (apply_menu_binds (ui "{x}" {[ "y" := PNone ]}) 2 0
                headless_state) as [_ Hbad].
    destruct (Hbad _ H2) as (_ & _ & Hget & _). rewrite Hget. reflexivity.
Defined.

Lemma menu_events_no_menu (tr : translator)
  (T : gmap string (gmap string string)) (menu : nat)
  (l : list (nat * list (nat * Token))) :
  ~ In menu (map fst l) ->
  forall i s, ~ In (EntryConfigure menu i s) (menu_events tr T l).
Proof.
  intros Hnot i s Hin. unfold menu_events in Hin.
  apply in_flat_map in Hin as ([m items] & Hm & Hitem).
  apply in_map_iff in Hitem as (item & Heq & _). simpl in Heq.
  injection Heq as -> _ _. apply Hnot.
  apply in_map_iff. now exists (menu, items).
Qed.

Lemma assoc_pop_keys {V} (key : nat) (l : list (nat * V)) :
  ~ In key (map fst (assoc_pop key l)).
Proof.
  induction l as [|[k x] l IH]; simpl; [tauto|].
  destruct (Nat.eqb k key) eqn:E; [exact IH|].
  apply Nat.eqb_neq in E. simpl. tauto.
Qed.

Lemma assoc_pop_absent {V} (key : nat) (l : list (nat * V)) :
  ~ In key (map fst l) -> assoc_pop key l = l.
Proof.
  induction l as [|[k x] l IH]; simpl; [reflexivity|].
  intros Hnot. destruct (Nat.eqb k key) eqn:E.
  - apply Nat.eqb_eq in E. tauto.
  - f_equal. apply IH. tauto.
Qed.

(** X18: [clear_stored_menu] forgets the tokens of the menu and of no other
    menu; it raises nothing for a menu that has none, a second call changes
    nothing, and after it a reload configures no entry of that menu. *)
Theorem clear_stored_menu_forgets (menu : nat) (st : state)
  (tr : translator) (T : gmap string (gmap string string)) :
  let st' := clear_stored_menu menu st in
  assoc_get menu (_applied_menu_tokens st') = None
  /\ (forall m, m <> menu ->
        assoc_get m (_applied_menu_tokens st')
        = assoc_get m (_applied_menu_tokens st))
  /\ clear_stored_menu menu st' = st'
  /\ (forall i s,
        ~ In (EntryConfigure menu i s)
             (menu_events tr T (_applied_menu_tokens st')))
  /\ _applied_tokens st' = _applied_tokens st
  /\ _langchange_callback st' = _langchange_callback st
  /\ events st' = events st.
Proof.
  simpl. split; [apply assoc_get_pop_eq|].
  split; [intros m Hm; now apply assoc_get_pop_ne|]. split.
  - unfold clear_stored_menu, set_applied_menu_tokens. simpl.
    now rewrite (assoc_pop_absent menu _ (assoc_pop_keys menu _)).
  - split; [|repeat split].
    apply menu_events_no_menu, assoc_pop_keys.
Qed.

(** ** The lines of the game translations *)

Lemma split_on_nonempty (sep : ascii) (s : string) : split_on sep s <> nil.
Proof.
  destruct s as [|c r]; simpl; [discriminate|].
  destruct (Ascii.eqb c sep); [discriminate|].
  destruct (split_on sep r); discriminate.
Qed.

Lemma split_on_length (sep : ascii) (s : string) :
  length (split_on sep s) = S (count_char sep s).
Proof.
  induction s as [|c r IH]; [reflexivity|].
  simpl. destruct (Ascii.eqb c sep); simpl; [now rewrite IH|].
  destruct (split_on sep r) eqn:E; [now apply split_on_nonempty in E|].
  simpl in *. exact IH.
Qed.

Lemma split_on_absent (sep : ascii) (s : string) :
  count_char sep s = O -> split_on sep s = s :: nil.
Proof.
  induction s as [|c r IH]; [reflexivity|].
  simpl. destruct (Ascii.eqb c sep); [discriminate|].
  intros H. now rewrite (IH H).
Qed.

Lemma split_on_first (sep : ascii) (a r : string) :
  count_char sep a = O ->
  split_on sep (a +:+ String sep r) = a :: split_on sep r.
Proof.
  induction a as [|c a IH]; intros H.
  - simpl. now rewrite Ascii.eqb_refl.
  - simpl in H. change (String c a +:+ String sep r)
      with (String c (a +:+ String sep r)). simpl.
    destruct (Ascii.eqb c sep); [discriminate|]. now rewrite (IH H).
Qed.

(** X19: a line that does not hold exactly four double quotes adds nothing
    to the table. *)
Theorem load_line_needs_four_quotes (trans_data : gmap string string)
  (line : string) :
  count_char dquote line <> 4%nat -> load_line trans_data line = trans_data.
Proof.
  intros Hn. unfold load_line.
  pose proof (split_on_length dquote line) as Hlen.
  destruct (split_on dquote line) as [|p0 [|p1 [|p2 [|p3 [|p4 [|p5 l]]]]]];
    try reflexivity.
  simpl in Hlen. congruence.
Qed.

Lemma load_line_needs_four_quotes_witness :
  count_char dquote (quoted "PORTAL2_PuzzleEditor_Item_Cube" +:+ " }") <> 4%nat
  /\ load_line ∅ (quoted "PORTAL2_PuzzleEditor_Item_Cube" +:+ " }") = ∅.
Proof.
  assert (H : count_char dquote
                (quoted "PORTAL2_PuzzleEditor_Item_Cube" +:+ " }") <> 4%nat)
    by (vm_compute; discriminate).
  split; [exact H|].
  exact (load_line_needs_four_quotes ∅ _ H).
Defined.

Lemma split_on_five (lead key mid value trail : string) :
  count_char dquote lead = O -> count_char dquote key = O ->
  count_char dquote mid = O -> count_char dquote value = O ->
  count_char dquote trail = O ->
  split_on dquote
    (lead +:+ String dquote (key +:+ String dquote
       (mid +:+ String dquote (value +:+ String dquote trail))))
  = lead :: key :: mid :: value :: trail :: nil.
Proof.
  intros H1 H2 H3 H4 H5.
  rewrite !split_on_first by assumption. now rewrite split_on_absent.
Qed.

Lemma load_line_well_formed_aux (trans_data : gmap string string)
  (lead key mid value trail : string) :
  count_char dquote lead = O -> count_char dquote key = O ->
  count_char dquote mid = O -> count_char dquote value = O ->
  count_char dquote trail = O ->
  load_line trans_data
    (lead +:+ String dquote (key +:+ String dquote
       (mid +:+ String dquote (value +:+ String dquote trail))))
  = if String.prefix PETI_KEY_PREFIX key
    then <[key := unescape_apostrophe value]> trans_data
    else trans_data.
Proof.
  intros H1 H2 H3 H4 H5. unfold load_line.
  now rewrite split_on_five by assumption.
Qed.

(** X20: a line made of a key and a value between double quotes, with any
    text free of double quotes before, between and after them, stores the
    value under the key, each backslash-apostrophe turned into an
    apostrophe, when the key has the puzzle editor prefix, and adds nothing
    otherwise. *)
Theorem load_line_well_formed (trans_data : gmap string string)
  (lead key mid value trail : string) :
  count_char dquote lead = O -> count_char dquote key = O ->
  count_char dquote mid = O -> count_char dquote value = O ->
  count_char dquote trail = O ->
  load_line trans_data
    (lead +:+ String dquote (key +:+ String dquote
       (mid +:+ String dquote (value +:+ String dquote trail))))
  = if String.prefix PETI_KEY_PREFIX key
    then <[key := unescape_apostrophe value]> trans_data
    else trans_data.
Proof.
  intros H1 H2 H3 H4 H5. now apply load_line_well_formed_aux.
Qed.

Lemma load_line_well_formed_witness :
  count_char dquote "  " = O
  /\ count_char dquote "PORTAL2_PuzzleEditor_Item_Cube" = O
  /\ count_char dquote " " = O
  /\ count_char dquote "Valve\'s cube" = O
  /\ count_char dquote "" = O
  /\ load_line ∅
       ("  " +:+ String dquote ("PORTAL2_PuzzleEditor_Item_Cube"
          +:+ String dquote (" " +:+ String dquote ("Valve\'s cube"
          +:+ String dquote ""))))
     = {[ "PORTAL2_PuzzleEditor_Item_Cube" := "Valve's cube" ]}.
Proof.
  repeat (split; [reflexivity|]).
  rewrite (load_line_well_formed ∅ "  " "PORTAL2_PuzzleEditor_Item_Cube"
             " " "Valve\'s cube" "") by reflexivity.
  reflexivity.
Defined.

Lemma load_lines_prefixed (lines : list string)
  (trans_data : gmap string string) :
  (forall k v, trans_data !! k = Some v ->
     String.prefix PETI_KEY_PREFIX k = true) ->
  forall k v, foldl load_line trans_data lines !! k = Some v ->
    String.prefix PETI_KEY_PREFIX k = true.
Proof.
  revert trans_data.
  induction lines as [|line lines IH]; intros d Hd; [exact Hd|].
  simpl. apply IH. intros k v. unfold load_line.
  destruct (split_on dquote line) as [|p0 [|p1 [|p2 [|p3 [|p4 [|p5 l]]]]]];
    try apply Hd.
  destruct (String.prefix PETI_KEY_PREFIX p1) eqn:Hp; [|apply Hd].
  destruct (decide (p1 = k)) as [->|Hne].
  - intros _. exact Hp.
  - rewrite lookup_insert_ne by exact Hne. apply Hd.
Qed.

(** X21: [load_basemodui] touches no namespace but the game one, and in the
    table it loads every key has the puzzle editor prefix. *)
Theorem load_basemodui_table (fs : string -> option (list string))
  (loc : string) (T : gmap string (gmap string string)) :
  (forall ns, ns <> NS_GAME -> load_basemodui fs loc T !! ns = T !! ns)
  /\ (T !! NS_GAME = None ->
      forall table k v,
        load_basemodui fs loc T !! NS_GAME = Some table ->
        table !! k = Some v -> String.prefix PETI_KEY_PREFIX k = true).
Proof.
  unfold load_basemodui. split.
  - intros ns Hns. destruct (T !! NS_GAME); [reflexivity|].
    destruct (fs loc); [|reflexivity].
    now rewrite lookup_insert_ne by congruence.
  - intros HT table k v. rewrite HT.
    destruct (fs loc) as [lines|]; [|congruence].
    rewrite lookup_insert_eq. intros [= <-].
    apply load_lines_prefixed. intros k' v' H.
    rewrite lookup_empty in H. discriminate.
Qed.

Lemma load_basemodui_table_witness :
  "OTHER_PACK" <> NS_GAME
  /\ load_basemodui sample_fs "basemodui.txt" {[ "OTHER_PACK" := ∅ ]}
       !! "OTHER_PACK" = Some ∅
  /\ (∅ : gmap string (gmap string string)) !! NS_GAME = None
  /\ String.prefix PETI_KEY_PREFIX "PORTAL2_PuzzleEditor_Item_Cube" = true.
Proof.
  destruct (load_basemodui_table sample_fs "basemodui.txt"
              {[ "OTHER_PACK" := ∅ ]}) as [Hother _].
  destruct (load_basemodui_table sample_fs "basemodui.txt" ∅)
    as [_ Hkeys].
  assert (Hne : "OTHER_PACK" <> NS_GAME) by discriminate.
  assert (H0 : (∅ : gmap string (gmap string string)) !! NS_GAME = None)
    by reflexivity.
  split; [exact Hne|]. split; [rewrite (Hother _ Hne); reflexivity|].
  split; [exact H0|].
  apply (Hkeys H0 {[ "PORTAL2_PuzzleEditor_Item_Cube" := "Cube" ]}
           "PORTAL2_PuzzleEditor_Item_Cube" "Cube"); reflexivity.
Defined.

(** X22: the round trip of the game translations: after a load from a file
    whose last line gives a key with the puzzle editor prefix and a value,
    the token [from_valve] of that key resolves to the value, unescaped,
    under every translator but the dummy one. *)
Theorem load_then_from_valve (fs : string -> option (list string))
  (loc : string) (T : gmap string (gmap string string))
  (tr : translator) (lines : list string)
  (lead key mid value trail : string) :
  T !! NS_GAME = None ->
  fs loc = Some (lines ++
    (lead +:+ String dquote (key +:+ String dquote
       (mid +:+ String dquote (value +:+ String dquote trail)))) :: nil)%list ->
  count_char dquote lead = O -> count_char dquote key = O ->
  count_char dquote mid = O -> count_char dquote value = O ->
  count_char dquote trail = O ->
  String.prefix PETI_KEY_PREFIX key = true ->
  is_dummy tr = false ->
  str tr (load_basemodui fs loc T) (from_valve key)
  = Ok (unescape_apostrophe value).
Proof.
  intros HT Hfs H1 H2 H3 H4 H5 Hp Hd.
  assert (Hk : (key =? "")%string = false).
  { destruct key; [discriminate Hp | reflexivity]. }
  unfold load_basemodui. rewrite HT, Hfs, foldl_app. simpl.
  rewrite load_line_well_formed_aux by assumption. rewrite Hp.
  unfold TransToken_str. rewrite Hk, Hd. simpl.
  unfold lookup_translation. now rewrite !lookup_insert_eq.
Qed.

Lemma load_then_from_valve_witness :
  let line := "" +:+ String dquote ("PORTAL2_PuzzleEditor_Item_Cube"
                +:+ String dquote (" " +:+ String dquote ("Cube"
                +:+ String dquote ""))) in
  let fs := fun _ : string => Some (("{" :: nil) ++ line :: nil)%list in
  (∅ : gmap string (gmap string string)) !! NS_GAME = None
  /\ String.prefix PETI_KEY_PREFIX "PORTAL2_PuzzleEditor_Item_Cube" = true
  /\ is_dummy NullTranslations = false
  /\ str NullTranslations (load_basemodui fs "basemodui.txt" ∅)
       (from_valve "PORTAL2_PuzzleEditor_Item_Cube") = Ok "Cube".
Proof.
  intros line fs.
  split; [reflexivity|]. split; [reflexivity|]. split; [reflexivity|].
  apply (load_then_from_valve fs "basemodui.txt" ∅ NullTranslations
           ("{" :: nil) "" "PORTAL2_PuzzleEditor_Item_Cube" " " "Cube" "");
    reflexivity.
Defined.

(** ** The children of a join token *)

Lemma str_join_children (tr : translator)
  (T : gmap string (gmap string string)) (cs : list Token) :
  (fix each (l : list Token) : pyresult (list string) :=
     match l with
     | nil => Ok nil
     | child :: l' =>
         s ← str tr T child;
         rest ← each l';
         Ok (s :: rest)
     end) cs
  = str_children tr T cs.
Proof. induction cs as [|c cs IH]; simpl; [reflexivity|]. now rewrite IH. Qed.

Lemma str_join_unfold (tr : translator)
  (T : gmap string (gmap string string)) (ns k : string)
  (p : gmap string pyobj) (cs : list Token) (srt : bool) :
  str tr T (JoinTransToken ns k p cs srt)
  = TransToken_str tr T ns k p ≫= fun sep =>
    str_children tr T cs ≫= fun items =>
    Ok (String.concat sep (if srt then sort_strings items else items)).
Proof. simpl. now rewrite str_join_children. Qed.

Lemma str_children_resolved (tr : translator)
  (T : gmap string (gmap string string)) (cs : list Token) :
  Forall (resolves tr T) cs ->
  str_children tr T cs = Ok (map (text_of tr T) cs).
Proof.
  induction 1 as [|c cs [s Hs] _ IH]; [reflexivity|].
  simpl. unfold text_of. unfold resolves_to in Hs. rewrite Hs. simpl.
  now rewrite IH.
Qed.

Lemma str_children_raises (tr : translator)
  (T : gmap string (gmap string string)) (before after : list Token)
  (c : Token) (e : exn) :
  Forall (resolves tr T) before -> str tr T c = Raise e ->
  str_children tr T (before ++ c :: after) = Raise e.
Proof.
  intros Hb Hc. induction Hb as [|b before [s Hs] _ IH]; simpl.
  - now rewrite Hc.
  - unfold resolves_to in Hs. rewrite Hs. simpl. now rewrite IH.
Qed.

Lemma join_str_resolved (tr : translator)
  (T : gmap string (gmap string string)) (ns k : string)
  (p : gmap string pyobj) (cs : list Token) (srt : bool) (sep : string) :
  TransToken_str tr T ns k p = Ok sep ->
  Forall (resolves tr T) cs ->
  str tr T (JoinTransToken ns k p cs srt)
  = Ok (String.concat sep
          (if srt then sort_strings (map (text_of tr T) cs)
           else map (text_of tr T) cs)).
Proof.
  intros Hsep Hcs. rewrite str_join_unfold, Hsep. simpl.
  now rewrite str_children_resolved.
Qed.

(** X23: when the separator and every child of a join token resolve, the
    token resolves to the texts of the children, in the order of the
    children or sorted, with the text of the separator between them; when
    the separator resolves and a child raises, the children before it
    resolving, the error of that child is the outcome. *)
Theorem join_concatenates (tr : translator)
  (T : gmap string (gmap string string)) (ns k : string)
  (p : gmap string pyobj) (srt : bool) (sep : string) :
  TransToken_str tr T ns k p = Ok sep ->
  (forall cs, Forall (resolves tr T) cs ->
     str tr T (JoinTransToken ns k p cs srt)
     = Ok (String.concat sep
             (if srt then sort_strings (map (text_of tr T) cs)
              else map (text_of tr T) cs)))
  /\ (forall before c after e,
        Forall (resolves tr T) before -> str tr T c = Raise e ->
        str tr T (JoinTransToken ns k p (before ++ c :: after) srt)
        = Raise e).
Proof.
  intros Hsep. split.
  - intros cs Hcs. now apply join_str_resolved.
  - intros before c after e Hb Hc. rewrite str_join_unfold, Hsep. simpl.
    now rewrite (str_children_raises tr T before after c e Hb Hc).
Qed.

Lemma join_concatenates_witness :
  TransToken_str NullTranslations ∅ NS_UI ", " ∅ = Ok ", "
  /\ str NullTranslations ∅
       (JoinTransToken NS_UI ", " ∅
          (ui "Cube" ∅ :: untranslated "Button" :: nil) false)
     = Ok "Cube, Button"
  /\ str NullTranslations ∅
       (JoinTransToken NS_UI ", " ∅
          (ui "Cube" ∅ :: ui_plural "item" "items" ∅ :: ui "{" ∅ :: nil)
          true)
     = Raise (ValueError PluralRequiresN).
Proof.
  assert (H : TransToken_str NullTranslations ∅ NS_UI ", " ∅ = Ok ", ")
    by reflexivity.
  split; [exact H|]. split.
  - destruct (join_concatenates NullTranslations ∅ NS_UI ", " ∅ false ", " H)
      as [Hall _].
    rewrite Hall; [reflexivity|].
    repeat constructor; eexists; reflexivity.
  - destruct (join_concatenates NullTranslations ∅ NS_UI ", " ∅ true ", " H)
      as [_ Hfirst].
    apply (Hfirst (ui "Cube" ∅ :: nil) (ui_plural "item" "items" ∅)
             (ui "{" ∅ :: nil)).
    + repeat constructor. eexists. reflexivity.
    + reflexivity.
Defined.

Lemma insert_sorted_Permutation (s : string) (l : list string) :
  insert_sorted s l ≡ₚ s :: l.
Proof.
  induction l as [|x l IH]; simpl; [reflexivity|].
  destruct (String.leb s x); [reflexivity|].
  rewrite IH. apply Permutation_swap.
Qed.

Lemma sort_strings_Permutation (l : list string) : sort_strings l ≡ₚ l.
Proof.
  induction l as [|x l IH]; simpl; [reflexivity|].
  rewrite insert_sorted_Permutation. now rewrite IH.
Qed.

Lemma insert_sorted_Sorted (s : string) (l : list string) :
  Sorted String.le l -> Sorted String.le (insert_sorted s l).
Proof.
  induction 1 as [|x l Hl IH Hhd]; simpl.
  - repeat constructor.
  - destruct (String.leb s x) eqn:E.
    + constructor; [now constructor|]. constructor.
      unfold String.le. now rewrite E.
    + assert (Hxs : String.le x s).
      { destruct (total String.le x s) as [H|H]; [exact H|].
        unfold String.le in H. rewrite E in H. contradiction. }
      constructor; [exact IH|].
      destruct l as [|y l]; simpl.
      * now constructor.
      * destruct (String.leb s y); constructor; [exact Hxs|].
        now inversion Hhd.
Qed.

Lemma sort_strings_Sorted (l : list string) :
  Sorted String.le (sort_strings l).
Proof.
  induction l as [|x l IH]; simpl; [constructor|].
  now apply insert_sorted_Sorted.
Qed.

Lemma sort_strings_of_Permutation (l l' : list string) :
  l ≡ₚ l' -> sort_strings l = sort_strings l'.
Proof.
  intros Hp. apply (Sorted_unique String.le).
  - apply sort_strings_Sorted.
  - apply sort_strings_Sorted.
  - now rewrite !sort_strings_Permutation.
Qed.

(** X24: the texts that a sorted join token puts together are in ascending
    order and are the texts of its children, each as many times as it
    occurs; so a sorted join token whose children all resolve resolves to
    the same text whatever the order of its children. *)
Theorem sorted_join_order_irrelevant (tr : translator)
  (T : gmap string (gmap string string)) (ns k : string)
  (p : gmap string pyobj) (cs cs' : list Token) :
  cs ≡ₚ cs' ->
  Forall (resolves tr T) cs ->
  str tr T (JoinTransToken ns k p cs true)
  = str tr T (JoinTransToken ns k p cs' true)
  /\ Sorted String.le (sort_strings (map (text_of tr T) cs))
  /\ sort_strings (map (text_of tr T) cs) ≡ₚ map (text_of tr T) cs.
Proof.
  intros Hp Hcs. split; [|split].
  - assert (Hcs' : Forall (resolves tr T) cs') by now rewrite <- Hp.
    rewrite !str_join_unfold.
    destruct (TransToken_str tr T ns k p) as [sep|e]; [|reflexivity].
    simpl. rewrite !str_children_resolved by assumption. simpl.
    f_equal. f_equal. apply sort_strings_of_Permutation.
    now apply Permutation_map.
  - apply sort_strings_Sorted.
  - apply sort_strings_Permutation.
Qed.

Lemma sorted_join_order_irrelevant_witness :
  (ui "b" ∅ :: ui "a" ∅ :: nil) ≡ₚ (ui "a" ∅ :: ui "b" ∅ :: nil)
  /\ Forall (resolves NullTranslations ∅) (ui "b" ∅ :: ui "a" ∅ :: nil)
  /\ str NullTranslations ∅
       (JoinTransToken NS_UI ", " ∅ (ui "b" ∅ :: ui "a" ∅ :: nil) true)
     = str NullTranslations ∅
         (JoinTransToken NS_UI ", " ∅ (ui "a" ∅ :: ui "b" ∅ :: nil) true).
Proof.
  assert (H1 : (ui "b" ∅ :: ui "a" ∅ :: nil)
               ≡ₚ (ui "a" ∅ :: ui "b" ∅ :: nil)) by apply Permutation_swap.
  assert (H2 : Forall (resolves NullTranslations ∅)
                 (ui "b" ∅ :: ui "a" ∅ :: nil)).
  { repeat constructor; eexists; reflexivity. }
  split; [exact H1|]. split; [exact H2|].
  apply (sorted_join_order_irrelevant NullTranslations ∅ NS_UI ", " ∅
           _ _ H1 H2).
Defined.

Lemma parameter_free_resolves (tr : translator)
  (T : gmap string (gmap string string)) (t : Token) :
  parameter_free t = true -> resolves tr T t.
Proof.
  induction t as [ns k p|ns k p kp|ns k p cs srt IH]
    using Token_children_ind; simpl; intros H.
  - apply bool_decide_eq_true in H. subst p.
    destruct (TransToken_str_without_parameters tr T ns k) as [s Hs].
    now exists s.
  - discriminate.
  - apply andb_true_iff in H as [Hp Hcs].
    apply bool_decide_eq_true in Hp. subst p.
    destruct (TransToken_str_without_parameters tr T ns k) as [sep Hsep].
    assert (Hall : Forall (resolves tr T) cs).
    { rewrite forallb_forall in Hcs. rewrite Forall_forall in *.
      intros c Hc. apply IH; [exact Hc|]. apply Hcs.
      now apply list_elem_of_In. }
    eexists. unfold resolves_to.
    now apply (join_str_resolved tr T ns k ∅ cs srt sep).
Qed.

(** X25: a token made without parameters, a plain token or a join token
    of such tokens at any depth, resolves under every translator and every
    table: [str] of it never raises. *)
Theorem parameter_free_never_raises (tr : translator)
  (T : gmap string (gmap string string)) (t : Token) :
  parameter_free t = true -> exists s, str tr T t = Ok s.
Proof. apply parameter_free_resolves. Qed.

Lemma parameter_free_never_raises_witness :
  let t := JoinTransToken NS_UI " / " ∅
             (JoinTransToken NS_UNTRANSLATED "{" ∅
                (ui "a" ∅ :: from_valve "}" :: nil) true
              :: ui "{oops" ∅ :: nil) false in
  parameter_free t = true /\ exists s, str DummyTranslations ∅ t = Ok s.
Proof.
  intros t. assert (H : parameter_free t = true) by reflexivity.
  split; [exact H|].
  exact (parameter_free_never_raises DummyTranslations ∅ t H).
Defined.

(** ** Equality of tokens is an equivalence *)

Lemma Token_eq_sym (a : Token) :
  forall b, Token_eq a b = true -> Token_eq b a = true.
Proof.
  induction a as [ns k p|ns k p kp|ns k p cs srt IH]
    using Token_children_ind;
    intros b H; apply Token_eq_same_fields in H;
    apply Token_eq_same_fields;
    destruct b as [ns' k' p'|ns' k' p' kp'|ns' k' p' cs' srt'];
    simpl in *; try contradiction.
  - destruct H as (-> & -> & ->). auto.
  - destruct H as (-> & -> & -> & ->). auto.
  - destruct H as (-> & -> & Hcs). repeat split.
    unfold children_eq in *. clear -IH Hcs.
    induction Hcs as [|c c' cs cs' Hc _ IHcs]; [constructor|].
    inversion IH as [|? ? Hhead Htail]; subst.
    constructor; [now apply Hhead | now apply IHcs].
Qed.

Lemma Token_eq_trans (a : Token) :
  forall b c, Token_eq a b = true -> Token_eq b c = true ->
              Token_eq a c = true.
Proof.
  induction a as [ns k p|ns k p kp|ns k p cs srt IH]
    using Token_children_ind;
    intros b c H1 H2; apply Token_eq_same_fields in H1;
    apply Token_eq_same_fields in H2; apply Token_eq_same_fields;
    destruct b as [ns' k' p'|ns' k' p' kp'|ns' k' p' cs' srt'];
    simpl in H1; try contradiction;
    destruct c as [ns'' k'' p''|ns'' k'' p'' kp''|ns'' k'' p'' cs'' srt''];
    simpl in *; try contradiction.
  - destruct H1 as (-> & -> & ->). exact H2.
  - destruct H1 as (-> & -> & -> & ->). exact H2.
  - destruct H1 as (-> & -> & Hcs), H2 as (-> & -> & Hcs').
    repeat split. unfold children_eq in *. clear -IH Hcs Hcs'.
    revert cs'' Hcs'.
    induction Hcs as [|x y cs cs' Hxy _ IHcs]; intros cs'' Hcs'.
    + inversion Hcs'. constructor.
    + inversion Hcs' as [|? z ? l Hyz Hrest]; subst.
      inversion IH as [|? ? Hhead Htail]; subst.
      constructor; [now apply (Hhead y z) | now apply IHcs].
Qed.

(** X26: the equality of tokens is reflexive, symmetric and transitive, and
    two equal tokens that are not join tokens are the same token, field by
    field. *)
Theorem Token_eq_equivalence (a b c : Token) :
  Token_eq a a = true
  /\ (Token_eq a b = true -> Token_eq b a = true)
  /\ (Token_eq a b = true -> Token_eq b c = true -> Token_eq a c = true)
  /\ (Token_eq a b = true ->
      match a with
      | JoinTransToken _ _ _ _ _ => True
      | _ => a = b
      end).
Proof.
  split; [apply Token_eq_refl|]. split; [apply Token_eq_sym|].
  split; [apply Token_eq_trans|].
  intros H. apply Token_eq_same_fields in H.
  destruct a as [ns k p|ns k p kp|ns k p cs srt],
           b as [ns' k' p'|ns' k' p' kp'|ns' k' p' cs' srt'];
    simpl in H; try contradiction; try exact I.
  - destruct H as (-> & -> & ->). reflexivity.
  - destruct H as (-> & -> & -> & ->). reflexivity.
Qed.

Lemma Token_eq_equivalence_witness :
  let a := JoinTransToken NS_UI ", " ∅ (ui "Save" ∅ :: nil) false in
  let b := JoinTransToken NS_UI ", " {[ "x" := PNone ]}
             (ui "Save" ∅ :: nil) true in
  Token_eq a b = true /\ Token_eq b a = true.
Proof.
  intros a b. assert (H : Token_eq a b = true) by reflexivity.
  split; [exact H|].
  destruct (Token_eq_equivalence a b a) as (_ & Hsym & _).
  exact (Hsym H).
Defined.

(** ** Choosing the language at start *)

Lemma is_lang_arg_prefix (code : string) :
  is_lang_arg ("lang=" +:+ code) = true
  /\ is_lang_arg ("LANG=" +:+ code) = true
  /\ is_lang_arg ("Lang=" +:+ code) = true
  /\ string_drop 5 ("lang=" +:+ code) = code
  /\ string_drop 5 ("LANG=" +:+ code) = code
  /\ string_drop 5 ("Lang=" +:+ code) = code.
Proof. repeat split. Qed.

Lemma lang_override_first (before after : list string) (arg : string) :
  Forall (fun a => is_lang_arg a = false) before ->
  is_lang_arg arg = true ->
  lang_override (before ++ arg :: after) = Some (string_drop 5 arg).
Proof.
  intros Hb Harg. induction Hb as [|x before Hx _ IH]; simpl.
  - now rewrite Harg.
  - now rewrite Hx.
Qed.

Lemma lang_override_none (args : list string) :
  Forall (fun a => is_lang_arg a = false) args -> lang_override args = None.
Proof. induction 1 as [|x l Hx _ IH]; simpl; [reflexivity|]. now rewrite Hx. Qed.

(** X27: [setup] sets the language of the first command line argument after
    the program name that starts with [lang=], in any letter case, to what
    follows the equals sign; the later arguments and the program name are
    not looked at; with no such argument it sets the language of the
    locale. *)
Theorem setup_language_argument (env : environment)
  (default_locale prog : string) (before after : list string)
  (arg : string) (st : state) :
  Forall (fun a => is_lang_arg a = false) before ->
  (is_lang_arg arg = true ->
     setup env default_locale (prog :: before ++ arg :: after) st
     = set_language env (string_drop 5 arg) st)
  /\ (forall code,
        setup env default_locale
          (prog :: before ++ ("lang=" +:+ code) :: after) st
        = set_language env code st
        /\ setup env default_locale
             (prog :: before ++ ("LANG=" +:+ code) :: after) st
           = set_language env code st)
  /\ setup env default_locale (prog :: before) st
     = set_language env default_locale st
  /\ setup env default_locale nil st = set_language env default_locale st.
Proof.
  intros Hb. unfold setup. simpl. split; [|split; [|split]].
  - intros Harg. now rewrite (lang_override_first before after arg Hb Harg).
  - intros code.
    destruct (is_lang_arg_prefix code) as (H1 & H2 & _ & D1 & D2 & _).
    rewrite (lang_override_first before after _ Hb H1), D1.
    rewrite (lang_override_first before after _ Hb H2), D2.
    split; reflexivity.
  - now rewrite (lang_override_none before Hb).
  - reflexivity.
Qed.

Lemma setup_language_argument_witness :
  Forall (fun a => is_lang_arg a = false) ("--dev" :: "language=fr" :: nil)
  /\ setup (sample_env true) "en_AU"
       ("lang=ja" :: "--dev" :: "language=fr" :: "Lang=dummy" :: "lang=fr"
        :: nil) headless_state
     = set_language (sample_env true) "dummy" headless_state.
Proof.
  assert (H : Forall (fun a => is_lang_arg a = false)
                ("--dev" :: "language=fr" :: nil)) by (repeat constructor).
  split; [exact H|].
  destruct (setup_language_argument (sample_env true) "en_AU" "lang=ja"
              ("--dev" :: "language=fr" :: nil) ("lang=fr" :: nil)
              "Lang=dummy" headless_state H) as [Harg _].
  apply Harg. reflexivity.
Defined.
